(** * GroverComparator: a shallow embedding of [grover_comparator.py]

    The Python class builds a Grover circuit for the pair [(number_1, number_2)]
    with qiskit, simulates it with the reference [Sampler], scans the returned
    quasi-distribution for its most likely key and answers [diff >= 0].

    Python integers are [Z]; exceptions are carried by [result], those numpy
    raises for a matrix it cannot hold and for an integer [np.sqrt] does not
    take included; the instance
    attribute [self.qc], which [check_larger_or_equal] mutates, is threaded
    through a small state-and-exception monad [M].  The qiskit gates are given
    their state-vector action on amplitudes in exact real arithmetic, with
    qiskit's little-endian convention: qubit [q] is bit [q] of a basis index. *)

From Stdlib Require Import String.
From Stdlib Require Import ZArith List Sorted Lia Reals Lra RNsatz Bool PeanoNat.
From Stdlib Require Import FunctionalExtensionality.
From Stdlib Require Floats.
Import ListNotations.

Open Scope string_scope.
Open Scope list_scope.
Open Scope Z_scope.

(* ================================================================= *)
(** ** Python values and exceptions *)

(** An exception is identified by its class name. *)
Definition exn := string.

Inductive result (A : Type) : Type :=
| Ok (a : A)
| Raise (e : exn).
Arguments Ok {A} a.
Arguments Raise {A} e.

Definition rbind {A B} (r : result A) (k : A -> result B) : result B :=
  match r with
  | Ok a => k a
  | Raise e => Raise e
  end.

(** [int.bit_length()]: the number of binary digits of the magnitude, [0] for [0]. *)
Definition bit_length (x : Z) : Z :=
  match x with
  | Z0 => 0
  | Zpos p | Zneg p => Zpos (Pos.size p)
  end.

(** [range(n)] as a list of qubit positions. *)
Definition range (n : Z) : list nat := seq 0 (Z.to_nat n).

(* ================================================================= *)
(** ** numpy integer matrices *)

Definition matrix := list (list Z).

(** The [N] by [N] identity, the array [np.eye(N, dtype=int)] holds once
    numpy has allocated it. *)
Definition eye (N : Z) : matrix :=
  let k := Z.to_nat N in
  map (fun r => map (fun c => if Nat.eqb r c then 1 else 0) (seq 0 k)) (seq 0 k).

Section Platform.

(** The largest array, in bytes, that the platform running the code lets
    numpy allocate. *)
Variable memory_bytes : Z.

(** [np.eye(N, dtype=int)], an array of [N * N] integers of 8 bytes: numpy
    raises [ValueError] for a negative size and for a byte count that does
    not fit its signed 64-bit sizes, and [MemoryError] when the platform does
    not grant the allocation. *)
Definition np_eye (N : Z) : result matrix :=
  if N <? 0 then Raise "ValueError"
  else if 2 ^ 63 <=? 8 * (N * N) then Raise "ValueError"
  else if memory_bytes <? 8 * (N * N) then Raise "MemoryError"
  else Ok (eye N).

(** [Operator(data)] of qiskit copies the matrix into an array of complex
    numbers of 16 bytes each, which the platform has to grant. *)
Definition Operator (m : matrix) : result matrix :=
  let N := Z.of_nat (length m) in
  if memory_bytes <? 16 * (N * N) then Raise "MemoryError" else Ok m.

(** Index normalisation of numpy: negative indices count from the end,
    anything else out of range raises [IndexError]. *)
Definition np_index (len : nat) (i : Z) : result nat :=
  if (0 <=? i) && (i <? Z.of_nat len) then Ok (Z.to_nat i)
  else if (- Z.of_nat len <=? i) && (i <? 0) then Ok (Z.to_nat (Z.of_nat len + i))
  else Raise "IndexError".

Fixpoint list_set {A : Type} (l : list A) (k : nat) (v : A) : list A :=
  match l, k with
  | [], _ => []
  | _ :: t, O => v :: t
  | h :: t, S k' => h :: list_set t k' v
  end.

(** [m[i][j] = v] *)
Definition np_setitem2 (m : matrix) (i j : Z) (v : Z) : result matrix :=
  rbind (np_index (length m) i) (fun r =>
  let row := nth r m [] in
  rbind (np_index (length row) j) (fun c =>
  Ok (list_set m r (list_set row c v)))).

(* ================================================================= *)
(** ** Amplitudes *)

Open Scope R_scope.

Definition C : Type := (R * R)%type.

Definition RtoC (r : R) : C := (r, 0).
Definition C0 : C := (0, 0).
Definition C1 : C := (1, 0).
Definition Cadd (x y : C) : C := (fst x + fst y, snd x + snd y).
Definition Copp (x : C) : C := (- fst x, - snd x).
Definition Csub (x y : C) : C := (fst x - fst y, snd x - snd y).
Definition Cmul (x y : C) : C :=
  (fst x * fst y - snd x * snd y, fst x * snd y + snd x * fst y).
Definition Cscale (r : R) (x : C) : C := (r * fst x, r * snd x).

(** Squared magnitude, the Born probability of an amplitude. *)
Definition Cnorm2 (x : C) : R := fst x * fst x + snd x * snd x.

Fixpoint Rsum (F : nat -> R) (N : nat) : R :=
  match N with
  | O => 0
  | S m => Rsum F m + F m
  end.

Fixpoint Csum (F : nat -> C) (N : nat) : C :=
  match N with
  | O => C0
  | S m => Cadd (Csum F m) (F m)
  end.

(** A state vector gives the amplitude of every basis index; a register of
    [n] qubits uses the indices below [2 ^ n]. *)
Definition state := nat -> C.

Definition ground : state := fun i => if Nat.eqb i 0 then C1 else C0.

(** Total probability carried by the [2 ^ n] basis states. *)
Definition total_probability (n : nat) (f : state) : R :=
  Rsum (fun i => Cnorm2 (f i)) (2 ^ n).

Definition mean (n : nat) (f : state) : C :=
  Cscale (/ INR (2 ^ n)) (Csum f (2 ^ n)).

(* ================================================================= *)
(** ** Gates and their action *)

Definition inv_sqrt2 : R := / sqrt 2.

(** Index of the basis state that differs from [i] in qubit [q] only. *)
Definition partner (q i : nat) : nat := Nat.lxor i (2 ^ q).

Definition hadamard (q : nat) (f : state) : state :=
  fun i =>
    if Nat.testbit i q
    then Cscale inv_sqrt2 (Csub (f (partner q i)) (f i))
    else Cscale inv_sqrt2 (Cadd (f i) (f (partner q i))).

Definition pauli_x (q : nat) (f : state) : state :=
  fun i => f (partner q i).

Definition mcx (controls : list nat) (target : nat) (f : state) : state :=
  fun i => if forallb (Nat.testbit i) controls then f (partner target i) else f i.

(** A unitary given by its matrix acts on the qubits [qs], the first of them
    being the least significant bit of the row and column index. *)
Fixpoint gather (qs : list nat) (i : nat) : nat :=
  match qs with
  | [] => O
  | q :: qs' => (Nat.b2n (Nat.testbit i q) + 2 * gather qs' i)%nat
  end.

Definition assign (q : nat) (b : bool) (i : nat) : nat :=
  if Bool.eqb (Nat.testbit i q) b then i else partner q i.

Fixpoint scatter (qs : list nat) (c : nat) (i : nat) : nat :=
  match qs with
  | [] => i
  | q :: qs' => scatter qs' (c / 2) (assign q (Nat.odd c) i)
  end.

Definition entry (m : matrix) (r c : nat) : C :=
  RtoC (IZR (nth c (nth r m []) 0%Z)).

Definition unitary (m : matrix) (qs : list nat) (f : state) : state :=
  fun i =>
    Csum (fun c => Cmul (entry m (gather qs i) c) (f (scatter qs c i)))
         (2 ^ length qs).

(* ================================================================= *)
(** ** Circuits *)

#[warnings="-register-all"]
Inductive Instruction : Type :=
| HGate (q : nat)
| XGate (q : nat)
| MCXGate (controls : list nat) (target : nat)
| UnitaryGate (m : matrix) (qs : list nat)
| Barrier (qs : list nat)
| Measure (q c : nat)
| Composite (name : string) (body : list Instruction) (qs : list nat).

(** A circuit created without a name gets one from qiskit, [circuit-<k>]
    with [k] a counter of the running process: its name is [None] here, and
    nothing below depends on it. *)
Record QuantumCircuit : Type := mkQC {
  qc_name : option string;
  num_qubits : nat;
  num_clbits : nat;
  data : list Instruction
}.

(** [QuantumCircuit(n)] and [QuantumCircuit(QuantumRegister(n), name=...)],
    for a width [n >= 0]; qiskit raises [CircuitError] for a negative one,
    which no instance built by [__init__] has. *)
Definition QuantumCircuit_new (name : option string) (n : Z) : QuantumCircuit :=
  mkQC name (Z.to_nat n) 0 [].

(** Instructions appended to [c.data]; every qubit they name is taken to
    exist in [c], as it does for the ranges the code passes on an instance
    built by [__init__] (qiskit raises [CircuitError] otherwise). *)
Definition qc_add (c : QuantumCircuit) (l : list Instruction) : QuantumCircuit :=
  mkQC (qc_name c) (num_qubits c) (num_clbits c) (data c ++ l).

(** [qc.h(qubits)] and [qc.x(qubits)] broadcast over the qubits given. *)
Definition qc_h (qs : list nat) (c : QuantumCircuit) : QuantumCircuit :=
  qc_add c (map HGate qs).
Definition qc_x (qs : list nat) (c : QuantumCircuit) : QuantumCircuit :=
  qc_add c (map XGate qs).
Definition qc_barrier (qs : list nat) (c : QuantumCircuit) : QuantumCircuit :=
  qc_add c [Barrier qs].
Definition qc_mcx (controls : list nat) (target : nat) (c : QuantumCircuit)
  : QuantumCircuit :=
  qc_add c [MCXGate controls target].
Definition qc_unitary (m : matrix) (qs : list nat) (c : QuantumCircuit)
  : QuantumCircuit :=
  qc_add c [UnitaryGate m qs].

Definition to_instruction (c : QuantumCircuit) (qs : list nat) : Instruction :=
  Composite (match qc_name c with Some name => name | None => "circuit" end)
            (data c) qs.

(** [qc.append(sub.to_instruction(), qargs)] *)
Definition qc_append (sub : list nat -> Instruction) (qs : list nat)
  (c : QuantumCircuit) : QuantumCircuit :=
  qc_add c [sub qs].

(** [qc.measure_all()]: a barrier, then every qubit measured into a fresh
    classical register. *)
Definition measurement (n clbits : nat) : list Instruction :=
  Barrier (seq 0 n) :: map (fun q => Measure q (clbits + q)%nat) (seq 0 n).

Definition qc_measure_all (c : QuantumCircuit) : QuantumCircuit :=
  let n := num_qubits c in
  mkQC (qc_name c) n (num_clbits c + n) (data c ++ measurement n (num_clbits c)).

(** Amplitudes after one instruction; [place] maps the qubit numbers written
    in the instruction to the qubits of the enclosing register.  Barriers and
    measurements leave the amplitudes as they are. *)
Fixpoint apply_instr (place : nat -> nat) (g : Instruction) (f : state)
  {struct g} : state :=
  match g with
  | HGate q => hadamard (place q) f
  | XGate q => pauli_x (place q) f
  | MCXGate cs t => mcx (map place cs) (place t) f
  | UnitaryGate m qs => unitary m (map place qs) f
  | Barrier _ => f
  | Measure _ _ => f
  | Composite _ body qs =>
      (fix go (l : list Instruction) (f : state) : state :=
         match l with
         | [] => f
         | g' :: l' => go l' (apply_instr (fun q => place (nth q qs q)) g' f)
         end) body f
  end.

(** Amplitudes after a list of instructions, first to last. *)
Definition run (place : nat -> nat) (l : list Instruction) (f : state) : state :=
  fold_left (fun f g => apply_instr place g f) l f.

Definition evolve (l : list Instruction) (f : state) : state :=
  run (fun q => q) l f.

(** The layers [qc.h(range(n))] and [qc.x(range(n))] act qubit after qubit. *)
Fixpoint hadamard_all (n : nat) (f : state) : state :=
  match n with
  | O => f
  | S m => hadamard m (hadamard_all m f)
  end.

Fixpoint pauli_x_all (n : nat) (f : state) : state :=
  match n with
  | O => f
  | S m => pauli_x m (pauli_x_all m f)
  end.

(** The basis index with the [n] lowest bits of [i] inverted. *)
Fixpoint complement (n i : nat) : nat :=
  match n with
  | O => i
  | S m => complement m (partner m i)
  end.

(** The closed forms of the specification, to compare the gates with. *)
Definition applyDiagonalPhaseFlip (index : nat) (f : state) : state :=
  fun i => if Nat.eqb i index then Copp (f i) else f i.

Definition applyDiffusionReflection (n : nat) (f : state) : state :=
  fun i => Csub (Cscale 2 (mean n f)) (f i).

(* ================================================================= *)
(** ** The most likely outcome *)

(** A quasi-distribution in the iteration order of [counts.items()]. *)
Definition quasi_dist := list (Z * R).

(** The running maximum starts at [float('-inf')]; the values compared with
    it are the probabilities of a distribution, finite reals, each of which
    exceeds it. *)
Inductive bound : Type :=
| NegInf
| Fin (r : R).

Definition exceeds (value : R) (max_value : bound) : bool :=
  match max_value with
  | NegInf => true
  | Fin r => if Rgt_dec value r then true else false
  end.

Definition most_likely_step (acc : option Z * bound) (item : Z * R)
  : option Z * bound :=
  if exceeds (snd item) (snd acc) then (Some (fst item), Fin (snd item)) else acc.

Definition most_likely (counts : quasi_dist) : option Z * bound :=
  fold_left most_likely_step counts (None, NegInf).

(* ================================================================= *)
(** ** class GroverComparator *)

Open Scope Z_scope.

Record GroverComparator : Type := mkGC {
  number_1 : Z;
  number_2 : Z;
  diff : Z;
  nqubits : Z;
  nstates : Z;
  qc : QuantumCircuit
}.

Definition __init__ (number_1 number_2 : Z) : GroverComparator :=
  let diff := number_1 - number_2 in
  let nqubits := Z.max (bit_length (Z.abs diff)) 2 in
  mkGC number_1 number_2 diff nqubits (2 ^ nqubits)
       (QuantumCircuit_new None nqubits).

(** The expression [GroverComparator(a, b)]: [__init__] has no [raise]. *)
Definition GroverComparator_new (a b : Z) : result GroverComparator :=
  Ok (__init__ a b).

(** The index [i = abs(self.diff)] whose diagonal entry the oracle negates. *)
Definition marked_index (self : GroverComparator) : Z := Z.abs (diff self).

(** [gate_matrix] once [-1] has been written at row and column [k]. *)
Definition marked_eye (N : Z) (k : nat) : matrix :=
  list_set (eye N) k (list_set (nth k (eye N) []) k (-1)).

Definition create_comparison_oracle (self : GroverComparator)
  : result (list nat -> Instruction) :=
  let sub := QuantumCircuit_new (Some "Oracle(>=)") (nqubits self) in
  rbind (np_eye (2 ^ nqubits self)) (fun gate_matrix =>
  let i := marked_index self in
  rbind (np_setitem2 gate_matrix i i (-1)) (fun gate_matrix =>
  rbind (Operator gate_matrix) (fun comparison_operator =>
  let sub := qc_unitary comparison_operator (range (nqubits self)) sub in
  Ok (to_instruction sub)))).

(** A register of [n] qubits is buildable when the platform can hold its
    oracle, a matrix of [2 ^ n] by [2 ^ n] entries: integers of 8 bytes first,
    whose byte count fits numpy's sizes up to [n = 29], then complex numbers
    of 16 bytes. *)
Definition buildable (n : Z) : Prop :=
  n <= 29 /\ 16 * (2 ^ n * 2 ^ n) <= memory_bytes.

(** The multi-controlled X needs a control, so a width of at least 2, which
    is what [__init__] always stores. *)
Definition create_diffuser (self : GroverComparator) : list nat -> Instruction :=
  let n := nqubits self in
  let last := Z.to_nat (n - 1) in
  let sub := QuantumCircuit_new (Some "Diffuser") n in
  let sub := qc_h (range n) sub in
  let sub := qc_x (range n) sub in
  let sub := qc_barrier (range n) sub in
  let sub := qc_h [last] sub in
  let sub := qc_mcx (range (n - 1)) last sub in
  let sub := qc_h [last] sub in
  let sub := qc_barrier (range n) sub in
  let sub := qc_x (range n) sub in
  let sub := qc_h (range n) sub in
  to_instruction sub.

(** Methods run on the instance: they may replace [self.qc] and may raise;
    what was done to the instance before an exception stays done. *)
Definition M (A : Type) : Type := GroverComparator -> GroverComparator * result A.

Definition ret {A} (a : A) : M A := fun self => (self, Ok a).

Definition bind {A B} (m : M A) (k : A -> M B) : M B :=
  fun self =>
    match m self with
    | (self', Ok a) => k a self'
    | (self', Raise e) => (self', Raise e)
    end.

Definition lift {A} (r : result A) : M A := fun self => (self, r).

Definition get_self : M GroverComparator := fun self => (self, Ok self).

(** [self.qc] replaced, every other attribute kept. *)
Definition with_qc (self : GroverComparator) (c : QuantumCircuit) : GroverComparator :=
  mkGC (number_1 self) (number_2 self) (diff self) (nqubits self) (nstates self) c.

Definition update_qc (u : QuantumCircuit -> QuantumCircuit) : M unit :=
  fun self => (with_qc self (u (qc self)), Ok tt).

Notation "x <- m ;; k" := (bind m (fun x => k))
  (at level 61, m at next level, right associativity).
Notation "m ;;; k" := (bind m (fun _ => k))
  (at level 61, right associativity).

(** [for _ in range(k): body] *)
Fixpoint for_range (k : nat) (body : M unit) : M unit :=
  match k with
  | O => ret tt
  | S k' => body ;;; for_range k' body
  end.

(** The value of [floor(pi / 4 * sqrt(nstates))], with pi, the square root
    and the floor taken exactly. *)
Definition niterations_of (nstates : Z) : Z :=
  Zfloor (PI / 4 * sqrt (IZR nstates)).

(** [int(np.floor(np.pi / 4 * np.sqrt(nstates)))] for a Python integer:
    [np.sqrt] takes integers of the 64-bit types and raises [TypeError] for
    any other; the root of a negative one is a NaN, on which [int] raises
    [ValueError]. *)
Definition niterations_checked (nstates : Z) : result Z :=
  if (nstates <? - 2 ^ 63) || (2 ^ 64 <=? nstates) then Raise "TypeError"
  else if nstates <? 0 then Raise "ValueError"
  else Ok (niterations_of nstates).

(** The same expression as numpy evaluates it, in IEEE binary64: the integer
    is rounded to a float, [np.pi] is the float [0x1.921fb54442d18p+1] nearest
    to pi, and [int] of the floor fails on an infinity or a NaN. *)
Definition float_of_int (x : Z) : PrimFloat.float :=
  FloatOps.SF2Prim (SpecFloat.binary_normalize FloatOps.prec FloatOps.emax x 0 false).

Definition np_pi : PrimFloat.float :=
  PrimFloat.div (float_of_int 7074237752028440) (float_of_int (2 ^ 51)).

Definition int_of_floor (x : PrimFloat.float) : option Z :=
  match FloatOps.Prim2SF x with
  | SpecFloat.S754_zero _ => Some 0
  | SpecFloat.S754_finite s m e => Some (Z.shiftl (if s then Z.neg m else Z.pos m) e)
  | _ => None
  end.

(** [None] where the source raises: outside the integers [np.sqrt] takes,
    and on a NaN or an infinity. *)
Definition niterations_binary64 (nstates : Z) : option Z :=
  if (nstates <? - 2 ^ 63) || (2 ^ 64 <=? nstates) then None
  else
    int_of_floor
      (PrimFloat.mul (PrimFloat.div np_pi (float_of_int 4))
                     (PrimFloat.sqrt (float_of_int nstates))).

(** A certificate, in integers, that [k] is the floor of [pi / 4 * sqrt N],
    from pi between 3.1415926535 and 3.1415926536. *)
Definition floor_certificate (N k : Z) : bool :=
  (0 <=? k) && (0 <=? N)
  && ((4 * k * 10000000000) * (4 * k * 10000000000) <=? 31415926535 * 31415926535 * N)
  && (31415926536 * 31415926536 * N
      <? (4 * (k + 1) * 10000000000) * (4 * (k + 1) * 10000000000)).

Definition binary64_agrees (n : Z) : bool :=
  match niterations_binary64 (2 ^ n) with
  | Some k => floor_certificate (2 ^ n) k
  | None => false
  end.

Definition grover_iteration : M unit :=
  self <- get_self ;;
  oracle <- lift (create_comparison_oracle self) ;;
  update_qc (qc_append oracle (range (nqubits self))) ;;;
  self <- get_self ;;
  update_qc (qc_append (create_diffuser self) (range (nqubits self))).

Section Sampling.

(** [Sampler().run(qc).result().quasi_dists[0]]: whatever the simulation
    returns for the circuit, or the exception it raises. *)
Variable sampler_run : QuantumCircuit -> result quasi_dist.

Definition check_larger_or_equal : M bool :=
  self <- get_self ;;
  update_qc (qc_h (range (nqubits self))) ;;;
  self <- get_self ;;
  niterations <- lift (niterations_checked (nstates self)) ;;
  for_range (Z.to_nat niterations) grover_iteration ;;;
  update_qc qc_measure_all ;;;
  self <- get_self ;;
  counts <- lift (sampler_run (qc self)) ;;
  let '(max_key, max_value) := most_likely counts in
  self <- get_self ;;
  ret (diff self >=? 0).

End Sampling.

(** The instructions one call appends: the Hadamard layer, [k] rounds of
    oracle then diffuser, and the final measurement into the classical bits
    from [clbits] on. *)
Definition hadamard_layer (self : GroverComparator) : list Instruction :=
  map HGate (range (nqubits self)).

Definition rounds (k : nat) (oracle diffuser : Instruction) : list Instruction :=
  concat (repeat [oracle; diffuser] k).

Definition algorithm (self : GroverComparator) (oracle : list nat -> Instruction)
  (clbits : nat) : list Instruction :=
  hadamard_layer self
  ++ rounds (Z.to_nat (niterations_of (nstates self)))
            (oracle (range (nqubits self)))
            (create_diffuser self (range (nqubits self)))
  ++ measurement (num_qubits (qc self)) clbits.

(** A method only ever appends to [self.qc]: whatever the instance, the
    instructions it leaves extend the ones it found. *)
Definition appends_only {A} (m : M A) : Prop :=
  forall self, exists l, data (qc (fst (m self))) = data (qc self) ++ l.

(** An instruction keeps the total probability of every [n]-qubit state. *)
Definition keeps_probability (n : nat) (g : Instruction) : Prop :=
  forall f, total_probability n (apply_instr (fun q => q) g f) = total_probability n f.

(** A state with amplitude [fst ab] at the marked index and [snd ab] at
    every other one. *)
Definition two_valued (marked : nat) (ab : R * R) : state :=
  fun i => if Nat.eqb i marked then RtoC (fst ab) else RtoC (snd ab).

(** What one round, oracle then diffuser, does to the two amplitudes of such
    a state over [N] basis states. *)
Definition grover_step (N : R) (ab : R * R) : R * R :=
  let mu := (((N - 1) * snd ab - fst ab) / N)%R in
  ((- fst ab - 2 * mu)%R, (snd ab - 2 * mu)%R).

Fixpoint grover_amplitudes (n k : nat) : R * R :=
  match k with
  | O => ((inv_sqrt2 ^ n)%R, (inv_sqrt2 ^ n)%R)
  | S k' => grover_step (INR (2 ^ n)) (grover_amplitudes n k')
  end.

(** The distribution an exact simulation of [n] qubits in state [f] yields,
    keys in ascending order. *)
Definition born (n : nat) (f : state) : quasi_dist :=
  map (fun i => (Z.of_nat i, Cnorm2 (f i))) (seq 0 (2 ^ n)).


(** An instruction fits a register of [n] qubits and [clbits] classical
    bits when every qubit and classical bit it names exists, a multi-controlled
    X has at least one control and a target outside its controls, a unitary
    has a square matrix of side [2 ^ k] for its [k] qubits, and the body of a
    composite fits the qubits the composite is placed on. *)
Fixpoint fits (n clbits : nat) (g : Instruction) {struct g} : bool :=
  match g with
  | HGate q | XGate q => Nat.ltb q n
  | MCXGate cs t =>
      forallb (fun q => Nat.ltb q n) cs && Nat.ltb t n
      && negb (existsb (Nat.eqb t) cs) && Nat.leb 1 (length cs)
  | UnitaryGate m qs =>
      forallb (fun q => Nat.ltb q n) qs
      && Nat.eqb (length m) (2 ^ length qs)
      && forallb (fun row => Nat.eqb (length row) (2 ^ length qs)) m
  | Barrier qs => forallb (fun q => Nat.ltb q n) qs
  | Measure q c => Nat.ltb q n && Nat.ltb c clbits
  | Composite _ body qs =>
      forallb (fun q => Nat.ltb q n) qs && forallb (fits (length qs) 0) body
  end.

(** The angle whose sine is the uniform amplitude [1 / sqrt (2 ^ n)]. *)
Definition grover_angle (n : nat) : R := asin (inv_sqrt2 ^ n).

(* ================================================================= *)
(** * Properties *)

(** ** Integers: bit lengths and powers of two *)

Lemma bit_length_nonneg x : 0 <= bit_length x.
Proof. destruct x; simpl; lia. Qed.

Lemma bit_length_upper x : Z.abs x < 2 ^ bit_length x.
Proof.
  destruct x as [|p|p]; simpl bit_length; simpl Z.abs; try lia;
    pose proof (Pos.size_gt p) as H;
    apply Pos2Z.pos_lt_pos in H; rewrite Pos2Z.inj_pow in H; exact H.
Qed.

Lemma bit_length_lower x : x <> 0 -> 2 ^ (bit_length x - 1) <= Z.abs x.
Proof.
  intros Hx.
  assert (Hp : forall p, 2 ^ (Z.pos (Pos.size p) - 1) <= Z.pos p).
  { intros p. pose proof (Pos.size_le p) as H.
    apply Pos2Z.pos_le_pos in H. rewrite Pos2Z.inj_pow in H.
    replace (Z.pos (Pos.size p)) with (Z.succ (Z.pos (Pos.size p) - 1)) in H by lia.
    rewrite Z.pow_succ_r in H by lia.
    change (Z.pos p~0) with (2 * Z.pos p) in H. lia. }
  destruct x as [|p|p]; simpl bit_length; simpl Z.abs; try congruence; apply Hp.
Qed.

(** [bit_length] is the least exponent whose power of two exceeds the magnitude. *)
Lemma bit_length_least x k : 0 <= k -> Z.abs x < 2 ^ k -> bit_length x <= k.
Proof.
  intros Hk Hlt.
  destruct (Z.eq_dec x 0) as [->|Hx]; [simpl; lia|].
  pose proof (bit_length_lower x Hx) as Hlo.
  destruct (Z_le_gt_dec (bit_length x) k) as [|Hgt]; [assumption|exfalso].
  assert (2 ^ k <= 2 ^ (bit_length x - 1)) by (apply Z.pow_le_mono_r; lia).
  lia.
Qed.

Lemma marked_in_range a b :
  0 <= Z.abs (a - b) < 2 ^ Z.max (bit_length (Z.abs (a - b))) 2.
Proof.
  split; [lia|].
  pose proof (bit_length_upper (a - b)) as Hup.
  pose proof (bit_length_nonneg (a - b)) as Hnn.
  assert (Habs : bit_length (Z.abs (a - b)) = bit_length (a - b))
    by (destruct (a - b); reflexivity).
  rewrite Habs.
  eapply Z.lt_le_trans; [exact Hup|].
  apply Z.pow_le_mono_r; lia.
Qed.

Lemma to_nat_pow2 n : 0 <= n -> Z.to_nat (2 ^ n) = (2 ^ Z.to_nat n)%nat.
Proof.
  intros Hn. apply Nat2Z.inj.
  rewrite Nat2Z.inj_pow, !Z2Nat.id; lia.
Qed.

(** ** numpy matrices *)

Lemma length_list_set {A} (l : list A) k v : length (list_set l k v) = length l.
Proof.
  revert k; induction l as [|h t IH]; intros [|k]; simpl; auto.
Qed.

Lemma nth_list_set {A} (l : list A) k v j d :
  nth j (list_set l k v) d =
  if (Nat.eqb j k && Nat.ltb k (length l))%bool then v else nth j l d.
Proof.
  revert k j; induction l as [|h t IH]; intros k j.
  - replace (Nat.ltb k (length (@nil A))) with false
      by (symmetry; apply Nat.ltb_ge; simpl; lia).
    rewrite andb_false_r. destruct k, j; reflexivity.
  - destruct k as [|k], j as [|j]; simpl; try reflexivity.
    rewrite IH. reflexivity.
Qed.

Lemma length_eye N : length (eye N) = Z.to_nat N.
Proof. unfold eye. rewrite length_map, length_seq. reflexivity. Qed.

Lemma nth_map_in {A B} (g : A -> B) (l : list A) r d d0 :
  (r < length l)%nat -> nth r (map g l) d = g (nth r l d0).
Proof.
  revert r; induction l as [|h t IH]; intros [|r] Hr; simpl in *; try lia; auto.
  apply IH. lia.
Qed.

Lemma nth_eye N r :
  (r < Z.to_nat N)%nat ->
  nth r (eye N) [] =
  map (fun c => if Nat.eqb r c then 1 else 0) (seq 0 (Z.to_nat N)).
Proof.
  intros Hr. unfold eye.
  rewrite nth_map_in with (d0 := O) by (rewrite length_seq; assumption).
  rewrite seq_nth by assumption. reflexivity.
Qed.

Lemma eye_entry N r c :
  (r < Z.to_nat N)%nat -> (c < Z.to_nat N)%nat ->
  nth c (nth r (eye N) []) 0 = if Nat.eqb r c then 1 else 0.
Proof.
  intros Hr Hc. rewrite nth_eye by assumption.
  rewrite nth_map_in with (d0 := O) by (rewrite length_seq; assumption).
  rewrite seq_nth by assumption. reflexivity.
Qed.

Lemma np_index_in_range len i :
  0 <= i < Z.of_nat len -> np_index len i = Ok (Z.to_nat i).
Proof.
  intros [H0 H1]. unfold np_index.
  apply Z.leb_le in H0. apply Z.ltb_lt in H1. rewrite H0, H1. reflexivity.
Qed.

(** The matrix the oracle is built from: the identity with [-1] written at
    the diagonal position [k]. *)
Lemma np_setitem2_eye_diag N i :
  0 <= i < N ->
  np_setitem2 (eye N) i i (-1) = Ok (marked_eye N (Z.to_nat i)).
Proof.
  intros Hi. unfold np_setitem2, marked_eye.
  rewrite np_index_in_range by (rewrite length_eye; lia). simpl rbind.
  rewrite nth_eye by lia.
  rewrite np_index_in_range by (rewrite length_map, length_seq; lia).
  reflexivity.
Qed.

Lemma marked_eye_entry N k r c :
  (k < Z.to_nat N)%nat -> (r < Z.to_nat N)%nat -> (c < Z.to_nat N)%nat ->
  nth c (nth r (marked_eye N k) []) 0 =
  if Nat.eqb r c then (if Nat.eqb r k then -1 else 1) else 0.
Proof.
  intros Hk Hr Hc. unfold marked_eye.
  rewrite nth_list_set, length_eye.
  apply Nat.ltb_lt in Hk as Hkb. rewrite Hkb, andb_true_r.
  destruct (Nat.eqb_spec r k) as [->|Hne].
  - rewrite nth_list_set, nth_eye, length_map, length_seq by assumption.
    rewrite Hkb, andb_true_r.
    destruct (Nat.eqb_spec c k) as [->|Hck].
    + rewrite Nat.eqb_refl. reflexivity.
    + destruct (Nat.eqb_spec k c); [congruence|].
      rewrite <- nth_eye by assumption.
      rewrite eye_entry by assumption.
      destruct (Nat.eqb_spec k c); [congruence|reflexivity].
  - rewrite eye_entry by assumption. reflexivity.
Qed.

(** When [np.eye] returns: the size limit of numpy and the platform. *)
Lemma pow2_square_bound n : 0 <= n <= 29 -> 8 * (2 ^ n * 2 ^ n) < 2 ^ 63.
Proof.
  intros Hn. rewrite <- Z.pow_add_r by lia.
  assert (H : 2 ^ (n + n) <= 2 ^ 58) by (apply Z.pow_le_mono_r; lia).
  change (2 ^ 63) with (32 * 2 ^ 58). lia.
Qed.

Lemma pow2_square_large n : 30 <= n -> 2 ^ 63 <= 8 * (2 ^ n * 2 ^ n).
Proof.
  intros Hn. rewrite <- Z.pow_add_r by lia.
  assert (H : 2 ^ 60 <= 2 ^ (n + n)) by (apply Z.pow_le_mono_r; lia).
  change (2 ^ 63) with (8 * 2 ^ 60). lia.
Qed.

Lemma np_eye_ok N :
  0 <= N -> 8 * (N * N) < 2 ^ 63 -> 8 * (N * N) <= memory_bytes ->
  np_eye N = Ok (eye N).
Proof.
  intros H0 H1 H2. unfold np_eye.
  destruct (Z.ltb_spec N 0); [lia|].
  destruct (Z.leb_spec (2 ^ 63) (8 * (N * N))); [lia|].
  destruct (Z.ltb_spec memory_bytes (8 * (N * N))); [lia|reflexivity].
Qed.

Lemma np_eye_buildable n : 0 <= n -> buildable n -> np_eye (2 ^ n) = Ok (eye (2 ^ n)).
Proof.
  intros Hn [Hw Hm]. assert (0 <= 2 ^ n) by (apply Z.pow_nonneg; lia).
  apply np_eye_ok; [assumption| |nia].
  apply pow2_square_bound. lia.
Qed.

Lemma Operator_cases m : Operator m = Ok m \/ Operator m = Raise "MemoryError".
Proof.
  unfold Operator.
  destruct (memory_bytes <? 16 * (Z.of_nat (length m) * Z.of_nat (length m))); auto.
Qed.

Lemma Operator_buildable n k :
  0 <= n -> buildable n -> Operator (marked_eye (2 ^ n) k) = Ok (marked_eye (2 ^ n) k).
Proof.
  intros Hn [_ Hm]. unfold Operator, marked_eye.
  rewrite length_list_set, length_eye, Z2Nat.id by (apply Z.pow_nonneg; lia).
  destruct (Z.ltb_spec memory_bytes (16 * (2 ^ n * 2 ^ n))); [lia|reflexivity].
Qed.

Lemma np_eye_too_large n : 30 <= n -> np_eye (2 ^ n) = Raise "ValueError".
Proof.
  intros Hn. unfold np_eye.
  assert (0 <= 2 ^ n) by (apply Z.pow_nonneg; lia).
  destruct (Z.ltb_spec (2 ^ n) 0); [lia|].
  pose proof (pow2_square_large n Hn).
  destruct (Z.leb_spec (2 ^ 63) (8 * (2 ^ n * 2 ^ n))); [reflexivity|lia].
Qed.

Lemma np_eye_not_granted n :
  0 <= n <= 29 -> memory_bytes < 8 * (2 ^ n * 2 ^ n) ->
  np_eye (2 ^ n) = Raise "MemoryError".
Proof.
  intros Hn Hm. unfold np_eye.
  assert (0 <= 2 ^ n) by (apply Z.pow_nonneg; lia).
  destruct (Z.ltb_spec (2 ^ n) 0); [lia|].
  pose proof (pow2_square_bound n Hn).
  destruct (Z.leb_spec (2 ^ 63) (8 * (2 ^ n * 2 ^ n))); [lia|].
  destruct (Z.ltb_spec memory_bytes (8 * (2 ^ n * 2 ^ n))); [reflexivity|lia].
Qed.

(** [np.eye] returns the identity or raises one of its two exceptions. *)
Lemma np_eye_cases N :
  np_eye N = Ok (eye N) \/ np_eye N = Raise "ValueError"
  \/ np_eye N = Raise "MemoryError".
Proof.
  unfold np_eye.
  destruct (N <? 0); [auto|].
  destruct (2 ^ 63 <=? 8 * (N * N)); [auto|].
  destruct (memory_bytes <? 8 * (N * N)); auto.
Qed.

(** ** The encoding of a comparison *)

Lemma init_nqubits_ge_2 a b : 2 <= nqubits (__init__ a b).
Proof. simpl. lia. Qed.

Lemma init_marked_lt_nstates a b :
  0 <= marked_index (__init__ a b) < 2 ^ nqubits (__init__ a b).
Proof. unfold marked_index. simpl. apply marked_in_range. Qed.

Lemma width_nonneg_of_marked self :
  0 <= marked_index self < 2 ^ nqubits self -> 0 <= nqubits self.
Proof.
  intros Hi. destruct (Z_lt_le_dec (nqubits self) 0) as [Hneg|]; [|assumption].
  rewrite Z.pow_neg_r in Hi by assumption. lia.
Qed.

(** The oracle for a marked index in range: the instruction named
    [Oracle(>=)] if [np.eye] and [Operator] return, the exception of the one
    that does not otherwise. *)
Lemma oracle_by_np_eye self :
  0 <= marked_index self < 2 ^ nqubits self ->
  create_comparison_oracle self =
  rbind (np_eye (2 ^ nqubits self)) (fun _ =>
  rbind (Operator (marked_eye (2 ^ nqubits self) (Z.to_nat (marked_index self)))) (fun _ =>
  Ok (fun qs =>
        Composite "Oracle(>=)"
          [UnitaryGate (marked_eye (2 ^ nqubits self) (Z.to_nat (marked_index self)))
                       (range (nqubits self))] qs))).
Proof.
  intros Hi. unfold create_comparison_oracle.
  destruct (np_eye_cases (2 ^ nqubits self)) as [H|[H|H]]; rewrite H; try reflexivity.
  simpl rbind. rewrite np_setitem2_eye_diag by assumption. simpl rbind.
  destruct (Operator_cases (marked_eye (2 ^ nqubits self) (Z.to_nat (marked_index self))))
    as [H'|H']; rewrite H'; reflexivity.
Qed.

Lemma oracle_of_marked_in_range self :
  0 <= marked_index self < 2 ^ nqubits self ->
  buildable (nqubits self) ->
  create_comparison_oracle self =
  Ok (fun qs =>
        Composite "Oracle(>=)"
          [UnitaryGate (marked_eye (2 ^ nqubits self) (Z.to_nat (marked_index self)))
                       (range (nqubits self))] qs).
Proof.
  intros Hi Hb. rewrite oracle_by_np_eye by assumption.
  rewrite np_eye_buildable by (eauto using width_nonneg_of_marked). simpl rbind.
  rewrite Operator_buildable by (eauto using width_nonneg_of_marked). reflexivity.
Qed.

Lemma oracle_too_large self :
  30 <= nqubits self -> create_comparison_oracle self = Raise "ValueError".
Proof.
  intros Hn. unfold create_comparison_oracle.
  rewrite np_eye_too_large by assumption. reflexivity.
Qed.

(** A marked index in range never makes the oracle fail on its write. *)
Lemma oracle_raises_from_np_eye self e :
  0 <= marked_index self < 2 ^ nqubits self ->
  create_comparison_oracle self = Raise e ->
  e = "ValueError" \/ e = "MemoryError".
Proof.
  intros Hi. rewrite oracle_by_np_eye by assumption.
  destruct (np_eye_cases (2 ^ nqubits self)) as [H|[H|H]]; rewrite H; simpl;
    try (intros He; inversion He; auto; fail).
  destruct (Operator_cases (marked_eye (2 ^ nqubits self) (Z.to_nat (marked_index self))))
    as [H'|H']; rewrite H'; simpl; intros He; inversion He; auto.
Qed.

(** C2: the constructor stores [diff = a - b] and the width
    [n = max(bitLength(|diff|), 2)], where the bit length of [0] is [0] and
    that of a positive [d] is the [l >= 1] with [2 ^ (l - 1) <= d < 2 ^ l];
    so [n >= 2], it is [2] exactly for [|diff| <= 3], even where one qubit
    would do, and otherwise the [n] with [2 ^ (n - 1) <= |diff| < 2 ^ n];
    [|diff| < 2 ^ n] always, and [n] is the least width of at least 2 with
    that property.  The size is [nstates = 2 ^ n] and the marked index is
    [|diff|]. *)
Theorem comparator_encoding (a b : Z) :
  let self := __init__ a b in
  let d := Z.abs (a - b) in
  diff self = a - b /\
  (d = 0 -> bit_length d = 0) /\
  (0 < d -> 1 <= bit_length d /\ 2 ^ (bit_length d - 1) <= d < 2 ^ bit_length d) /\
  nqubits self = Z.max (bit_length d) 2 /\
  2 <= nqubits self /\
  (nqubits self = 2 <-> d <= 3) /\
  (2 < nqubits self -> 2 ^ (nqubits self - 1) <= d) /\
  d < 2 ^ nqubits self /\
  (forall k, 2 <= k -> d < 2 ^ k -> nqubits self <= k) /\
  nstates self = 2 ^ nqubits self /\
  marked_index self = d /\
  0 <= marked_index self < nstates self.
Proof.
  cbv zeta. unfold marked_index. simpl diff. simpl nqubits. simpl nstates.
  set (d := Z.abs (a - b)).
  assert (Hd0 : 0 <= d) by (apply Z.abs_nonneg).
  pose proof (bit_length_nonneg d) as Hnn.
  pose proof (bit_length_upper d) as Hup. rewrite (Z.abs_eq d) in Hup by assumption.
  assert (Hlow : 0 < d -> 1 <= bit_length d /\ 2 ^ (bit_length d - 1) <= d).
  { intros Hpos. pose proof (bit_length_lower d ltac:(lia)) as Hlo.
    rewrite (Z.abs_eq d) in Hlo by assumption. split; [|assumption].
    destruct (Z.eq_dec (bit_length d) 0) as [E|]; [|lia].
    rewrite E in Hup. simpl in Hup. lia. }
  assert (Hleast : forall k, 0 <= k -> d < 2 ^ k -> bit_length d <= k).
  { intros k Hk Hlt. apply bit_length_least; [assumption|].
    rewrite Z.abs_eq; assumption. }
  assert (Hmax : d < 2 ^ Z.max (bit_length d) 2).
  { apply Z.lt_le_trans with (2 ^ bit_length d); [assumption|].
    apply Z.pow_le_mono_r; lia. }
  repeat split; try lia.
  - intros E. rewrite E. reflexivity.
  - intros E. destruct (Z_le_gt_dec d 3) as [|Hgt]; [assumption|exfalso].
    rewrite E in Hmax. simpl in Hmax. lia.
  - intros Hle. pose proof (Hleast 2 ltac:(lia) ltac:(simpl; lia)). lia.
  - intros Hn. destruct (Z.eq_dec d 0) as [E|Hne].
    + rewrite E in Hn. simpl in Hn. lia.
    + destruct (Hlow ltac:(lia)) as [_ Hlo].
      replace (Z.max (bit_length d) 2) with (bit_length d) by lia. assumption.
  - intros k Hk Hlt. pose proof (Hleast k ltac:(lia) Hlt). lia.
Qed.

(** The width stays 2 where a single qubit would hold the marked index. *)
Example width_of_difference_one :
  bit_length (Z.abs (4 - 3)) = 1 /\ nqubits (__init__ 4 3) = 2.
Proof. split; reflexivity. Qed.

(** C6: the marked index [|a - b|] lies in [[0, 2 ^ n)], so the write of [-1]
    at the diagonal position of the [2 ^ n] by [2 ^ n] matrix is in bounds:
    the oracle never raises [IndexError], and it is built whenever numpy can
    hold the matrix. *)
Theorem marked_index_in_bounds (a b : Z) :
  let self := __init__ a b in
  let n := Z.max (bit_length (Z.abs (a - b))) 2 in
  0 <= Z.abs (a - b) < 2 ^ n /\
  nqubits self = n /\
  marked_index self = Z.abs (a - b) /\
  Z.of_nat (length (eye (2 ^ nqubits self))) = 2 ^ n /\
  np_setitem2 (eye (2 ^ nqubits self)) (marked_index self) (marked_index self) (-1)
    = Ok (marked_eye (2 ^ n) (Z.to_nat (Z.abs (a - b)))) /\
  (buildable (nqubits self) ->
   exists oracle, create_comparison_oracle self = Ok oracle) /\
  create_comparison_oracle self <> Raise "IndexError".
Proof.
  pose proof (marked_in_range a b) as Hr.
  cbv zeta. simpl nqubits. unfold marked_index. simpl diff.
  repeat split; try lia.
  - rewrite length_eye, Z2Nat.id; [reflexivity|]. apply Z.pow_nonneg; lia.
  - apply np_setitem2_eye_diag. assumption.
  - intros Hb. eexists. apply (oracle_of_marked_in_range (__init__ a b)).
    + apply init_marked_lt_nstates.
    + exact Hb.
  - intros He.
    destruct (oracle_raises_from_np_eye (__init__ a b) _
                (init_marked_lt_nstates a b) He); discriminate.
Qed.

(** C9 as stated fails: the pair [(2 ^ 31, 0)] has width 32, above the bound
    of 30 the claim names, and the constructor returns an instance. *)
Lemma constructor_accepts_width_32 :
  nqubits (__init__ (2 ^ 31) 0) = 32 /\
  GroverComparator_new (2 ^ 31) 0 = Ok (__init__ (2 ^ 31) 0) /\
  ~ ((nqubits (__init__ (2 ^ 31) 0) < 1 \/ 30 < nqubits (__init__ (2 ^ 31) 0)) ->
     GroverComparator_new (2 ^ 31) 0 = Raise "ConfigurationError").
Proof.
  assert (Hw : nqubits (__init__ (2 ^ 31) 0) = 32) by reflexivity.
  split; [exact Hw|]. split; [reflexivity|].
  intros H. rewrite Hw in H. discriminate H. right. lia.
Qed.

(** C9, amended: the constructor never raises; the width it stores is at
    least 2, so a width below 1 cannot arise, and no upper bound is enforced:
    every bound is exceeded by the width of some accepted pair. *)
Theorem constructor_never_rejects :
  (forall a b : Z,
      exists self, GroverComparator_new a b = Ok self /\ 2 <= nqubits self /\
                   nqubits self = Z.max (bit_length (Z.abs (a - b))) 2) /\
  (forall bound : Z,
      exists a b self, GroverComparator_new a b = Ok self /\ bound < nqubits self).
Proof.
  split.
  - intros a b. exists (__init__ a b). repeat split. simpl. lia.
  - intros bound. exists (2 ^ Z.max bound 0), 0, (__init__ (2 ^ Z.max bound 0) 0).
    split; [reflexivity|]. simpl nqubits.
    rewrite Z.sub_0_r.
    assert (Hpos : 0 < 2 ^ Z.max bound 0) by (apply Z.pow_pos_nonneg; lia).
    rewrite Z.abs_eq by lia.
    destruct (Z_le_gt_dec (bit_length (2 ^ Z.max bound 0)) (Z.max bound 0)) as [Hle|Hgt];
      [exfalso|lia].
    pose proof (bit_length_upper (2 ^ Z.max bound 0)) as Hup.
    rewrite Z.abs_eq in Hup by lia.
    assert (2 ^ bit_length (2 ^ Z.max bound 0) <= 2 ^ Z.max bound 0)
      by (apply Z.pow_le_mono_r; [lia|exact Hle]).
    lia.
Qed.

(** ** One call of [check_larger_or_equal] *)

Lemma oracle_with_qc self c :
  create_comparison_oracle (with_qc self c) = create_comparison_oracle self.
Proof. reflexivity. Qed.


Lemma with_qc_with_qc self c c' : with_qc (with_qc self c) c' = with_qc self c'.
Proof. reflexivity. Qed.

Lemma qc_add_add c l l' : qc_add (qc_add c l) l' = qc_add c (l ++ l').
Proof. unfold qc_add. simpl. rewrite <- app_assoc. reflexivity. Qed.

Lemma grover_iteration_ok self oracle :
  create_comparison_oracle self = Ok oracle ->
  grover_iteration self =
  (with_qc self (qc_add (qc self) [oracle (range (nqubits self));
                                  create_diffuser self (range (nqubits self))]),
   Ok tt).
Proof.
  intros Ho. unfold grover_iteration, bind, get_self, lift, update_qc, qc_append.
  rewrite Ho. simpl. rewrite qc_add_add. reflexivity.
Qed.

Lemma grover_iteration_raise self e :
  create_comparison_oracle self = Raise e ->
  grover_iteration self = (self, Raise e).
Proof.
  intros Ho. unfold grover_iteration, bind, get_self, lift. rewrite Ho. reflexivity.
Qed.

Lemma for_range_grover_ok k : forall self oracle,
  create_comparison_oracle self = Ok oracle ->
  for_range k grover_iteration self =
  (with_qc self (qc_add (qc self)
                   (rounds k (oracle (range (nqubits self)))
                             (create_diffuser self (range (nqubits self))))),
   Ok tt).
Proof.
  induction k as [|k IH]; intros self oracle Ho.
  - unfold rounds. simpl. unfold ret, qc_add. rewrite app_nil_r.
    destruct self as [? ? ? ? ? []]; reflexivity.
  - simpl for_range. unfold bind at 1.
    rewrite (grover_iteration_ok self oracle Ho).
    rewrite (IH _ oracle) by (rewrite oracle_with_qc; exact Ho).
    rewrite with_qc_with_qc. simpl qc. rewrite qc_add_add. reflexivity.
Qed.

Lemma niterations_checked_ok N :
  0 <= N < 2 ^ 64 -> niterations_checked N = Ok (niterations_of N).
Proof.
  intros HN. unfold niterations_checked.
  destruct (Z.ltb_spec N (- 2 ^ 63)); [lia|].
  destruct (Z.leb_spec (2 ^ 64) N); [lia|].
  destruct (Z.ltb_spec N 0); [lia|reflexivity].
Qed.

Lemma niterations_checked_too_wide N :
  2 ^ 64 <= N -> niterations_checked N = Raise "TypeError".
Proof.
  intros HN. unfold niterations_checked.
  destruct (Z.leb_spec (2 ^ 64) N); [|lia].
  rewrite orb_true_r. reflexivity.
Qed.

Lemma init_nstates_small a b :
  nqubits (__init__ a b) <= 63 -> 0 <= nstates (__init__ a b) < 2 ^ 64.
Proof.
  intros Hn. pose proof (init_nqubits_ge_2 a b) as H2.
  change (nstates (__init__ a b)) with (2 ^ nqubits (__init__ a b)).
  split; [apply Z.pow_nonneg; lia|].
  apply Z.pow_lt_mono_r; lia.
Qed.

Lemma init_nstates_wide a b :
  64 <= nqubits (__init__ a b) -> 2 ^ 64 <= nstates (__init__ a b).
Proof.
  intros Hn. change (nstates (__init__ a b)) with (2 ^ nqubits (__init__ a b)).
  apply Z.pow_le_mono_r; lia.
Qed.

(** A round that cannot build its oracle leaves the instance as it is. *)
Lemma for_range_grover_raise k self e :
  create_comparison_oracle self = Raise e ->
  for_range (S k) grover_iteration self = (self, Raise e).
Proof.
  intros Ho. simpl for_range. unfold bind.
  rewrite (grover_iteration_raise self e Ho). reflexivity.
Qed.

(** The call raises in [np.sqrt], with the Hadamard layer appended only. *)
Lemma check_raises_in_sqrt sampler_run self :
  2 ^ 64 <= nstates self ->
  check_larger_or_equal sampler_run self =
  (with_qc self (qc_h (range (nqubits self)) (qc self)), Raise "TypeError").
Proof.
  intros HN. unfold check_larger_or_equal, bind, get_self, update_qc, lift.
  cbn [nstates with_qc].
  rewrite (niterations_checked_too_wide _ HN). reflexivity.
Qed.

(** The call raises in its first round, with the Hadamard layer appended
    only, when the oracle cannot be built. *)
Lemma check_raises_in_oracle sampler_run self e :
  0 <= nstates self < 2 ^ 64 ->
  1 <= niterations_of (nstates self) ->
  create_comparison_oracle self = Raise e ->
  check_larger_or_equal sampler_run self =
  (with_qc self (qc_h (range (nqubits self)) (qc self)), Raise e).
Proof.
  intros HN Hk Ho. unfold check_larger_or_equal, bind, get_self, update_qc, lift.
  cbn [nstates with_qc].
  rewrite (niterations_checked_ok _ HN).
  destruct (Z.to_nat (niterations_of (nstates self))) as [|k] eqn:Ek; [lia|].
  rewrite (for_range_grover_raise k _ e) by (rewrite oracle_with_qc; exact Ho).
  reflexivity.
Qed.

(** Where the call leaves the instance, and what it answers, when the count
    of rounds can be computed and the oracle can be built: the answer is that
    of the sampler when it raises, and [diff >= 0] otherwise. *)
Lemma check_larger_or_equal_ok sampler_run self oracle :
  0 <= nstates self < 2 ^ 64 ->
  create_comparison_oracle self = Ok oracle ->
  let self' :=
    with_qc self
      (mkQC (qc_name (qc self)) (num_qubits (qc self))
            (num_clbits (qc self) + num_qubits (qc self))
            (data (qc self) ++ algorithm self oracle (num_clbits (qc self)))) in
  check_larger_or_equal sampler_run self =
  (self', match sampler_run (qc self') with
          | Ok _ => Ok (diff self >=? 0)
          | Raise e => Raise e
          end).
Proof.
  intros HN Ho self'.
  unfold check_larger_or_equal, bind, get_self, update_qc, lift, ret.
  cbn [nstates with_qc].
  rewrite (niterations_checked_ok _ HN).
  rewrite (for_range_grover_ok _ _ oracle) by exact Ho.
  subst self'. destruct self as [n1 n2 d nq ns [name qubits clbits instrs]].
  unfold algorithm, hadamard_layer, qc_measure_all, qc_h, qc_add, with_qc, create_diffuser.
  cbn [qc data num_qubits num_clbits qc_name number_1 number_2 diff nqubits nstates].
  rewrite <- !app_assoc.
  match goal with |- context [sampler_run ?c] => destruct (sampler_run c) as [counts|e] end;
    [|reflexivity].
  destruct (most_likely counts) as [max_key max_value].
  reflexivity.
Qed.

(** What a call leaves in [self.qc], whatever the instance: the Hadamard
    layer alone when the count of rounds or the first oracle raises; the
    whole algorithm; or, where the count is 0, the layer and the measurement. *)
Lemma check_circuit_cases sampler_run self :
  let circuit := data (qc (fst (check_larger_or_equal sampler_run self))) in
  let clbits := num_clbits (qc (fst (check_larger_or_equal sampler_run self))) in
  (circuit = data (qc self) ++ hadamard_layer self /\ clbits = num_clbits (qc self)) \/
  (exists oracle,
      create_comparison_oracle self = Ok oracle /\
      circuit = data (qc self) ++ algorithm self oracle (num_clbits (qc self)) /\
      clbits = (num_clbits (qc self) + num_qubits (qc self))%nat) \/
  (niterations_of (nstates self) <= 0 /\
   circuit = data (qc self) ++ hadamard_layer self
             ++ measurement (num_qubits (qc self)) (num_clbits (qc self)) /\
   clbits = (num_clbits (qc self) + num_qubits (qc self))%nat).
Proof.
  cbv zeta.
  destruct (Z_lt_le_dec (nstates self) 0) as [Hneg|Hnn].
  { left. unfold check_larger_or_equal, bind, get_self, update_qc, lift.
    cbn [nstates with_qc]. unfold niterations_checked.
    destruct ((nstates self <? - 2 ^ 63) || (2 ^ 64 <=? nstates self))%bool;
      [split; reflexivity|].
    destruct (Z.ltb_spec (nstates self) 0); [split; reflexivity|lia]. }
  destruct (Z_lt_le_dec (nstates self) (2 ^ 64)) as [Hlt|Hge].
  2:{ left. rewrite check_raises_in_sqrt by assumption. split; reflexivity. }
  assert (HN : 0 <= nstates self < 2 ^ 64) by lia.
  destruct (Z_lt_le_dec 0 (niterations_of (nstates self))) as [Hk|Hk].
  - destruct (create_comparison_oracle self) as [oracle|e] eqn:Ho.
    + right. left. exists oracle. split; [reflexivity|].
      rewrite (check_larger_or_equal_ok sampler_run self oracle HN Ho).
      split; reflexivity.
    + left. rewrite (check_raises_in_oracle sampler_run self e HN ltac:(lia) Ho).
      split; reflexivity.
  - right. right. split; [assumption|].
    unfold check_larger_or_equal, bind, get_self, update_qc, lift, ret.
    cbn [nstates with_qc]. rewrite (niterations_checked_ok _ HN).
    replace (Z.to_nat (niterations_of (nstates self))) with O by lia.
    cbn [for_range]. unfold ret.
    destruct self as [n1 n2 d nq ns [name qubits clbits instrs]].
    unfold hadamard_layer, qc_measure_all, qc_h, qc_add, with_qc.
    cbn [qc data num_qubits num_clbits qc_name number_1 number_2 diff nqubits nstates].
    match goal with |- context [sampler_run ?c] => destruct (sampler_run c) as [counts|e] end.
    + destruct (most_likely counts) as [max_key max_value].
      cbn [fst qc data num_clbits]. rewrite <- app_assoc. split; reflexivity.
    + cbn [fst qc data num_clbits]. rewrite <- app_assoc. split; reflexivity.
Qed.

Lemma init_buildable_nstates a b :
  buildable (nqubits (__init__ a b)) -> 0 <= nstates (__init__ a b) < 2 ^ 64.
Proof. intros [Hw _]. apply init_nstates_small. lia. Qed.

Lemma check_larger_or_equal_init sampler_run a b :
  buildable (nqubits (__init__ a b)) ->
  exists oracle,
    create_comparison_oracle (__init__ a b) = Ok oracle /\
    forall c,
      check_larger_or_equal sampler_run (with_qc (__init__ a b) c) =
      (let self' :=
         with_qc (__init__ a b)
           (mkQC (qc_name c) (num_qubits c) (num_clbits c + num_qubits c)
                 (data c ++ algorithm (with_qc (__init__ a b) c) oracle (num_clbits c))) in
       (self', match sampler_run (qc self') with
               | Ok _ => Ok (a - b >=? 0)
               | Raise e => Raise e
               end)).
Proof.
  intros Hb. eexists. split.
  - apply oracle_of_marked_in_range; [apply init_marked_lt_nstates|exact Hb].
  - intros c.
    rewrite (check_larger_or_equal_ok sampler_run (with_qc (__init__ a b) c) _
               (init_buildable_nstates a b Hb)
               (oracle_of_marked_in_range _ (init_marked_lt_nstates a b) Hb)).
    reflexivity.
Qed.

(** ** The number of rounds *)

Lemma PI_digits : (3.1415926535 < PI < 3.1415926536)%R.
Proof.
  pose proof (PI_2_3_7_ineq 5) as [Hlo Hhi].
  unfold sum_f_R0, tg_alt, PI_2_3_7_tg, Ratan_seq in Hlo, Hhi.
  simpl in Hlo, Hhi.
  split; lra.
Qed.

Lemma le_of_squares (x y : R) : (0 <= y -> x * x <= y * y -> x <= y)%R.
Proof. intros Hy Hsq. nra. Qed.

Lemma lt_of_squares (x y : R) : (0 <= x -> 0 <= y -> x * x < y * y -> x < y)%R.
Proof. intros Hx Hy Hsq. nra. Qed.

Lemma floor_certificate_sound N k :
  floor_certificate N k = true -> niterations_of N = k.
Proof.
  unfold floor_certificate. rewrite !andb_true_iff.
  intros [[[Hk HN] Hlo] Hhi].
  apply Z.leb_le in Hk, HN, Hlo. apply Z.ltb_lt in Hhi.
  apply IZR_le in Hk, HN, Hlo. apply IZR_lt in Hhi.
  rewrite !mult_IZR in Hlo, Hhi. rewrite plus_IZR in Hhi.
  pose proof PI_digits as [Hp1 Hp2].
  pose proof (sqrt_pos (IZR N)) as Hs0.
  pose proof (sqrt_sqrt (IZR N) HN) as Hss.
  set (s := sqrt (IZR N)) in *.
  unfold niterations_of. fold s. apply Zfloor_eq.
  assert (H1 : (4 * IZR k * 10000000000 <= 31415926535 * s)%R).
  { apply le_of_squares; [nra|].
    replace (31415926535 * s * (31415926535 * s))%R
      with (31415926535 * 31415926535 * (s * s))%R by ring.
    rewrite Hss. exact Hlo. }
  assert (H2 : (31415926536 * s < 4 * (IZR k + 1) * 10000000000)%R).
  { apply lt_of_squares; [nra|nra|].
    replace (31415926536 * s * (31415926536 * s))%R
      with (31415926536 * 31415926536 * (s * s))%R by ring.
    rewrite Hss. exact Hhi. }
  split; nra.
Qed.

Lemma niterations_nonneg N : 0 <= niterations_of N.
Proof.
  unfold niterations_of. apply Zfloor_lub.
  pose proof PI_digits. pose proof (sqrt_pos (IZR N)).
  apply Rmult_le_pos; lra.
Qed.

Lemma binary64_agrees_upto_63 :
  forallb binary64_agrees (map Z.of_nat (seq 2 62)) = true.
Proof. vm_compute. reflexivity. Qed.

(** For every width from 2 to 63 the binary64 evaluation floors to the same
    count as the exact expression. *)
Lemma niterations_binary64_exact n :
  2 <= n <= 63 -> niterations_binary64 (2 ^ n) = Some (niterations_of (2 ^ n)).
Proof.
  intros Hn. pose proof binary64_agrees_upto_63 as Hall.
  rewrite forallb_forall in Hall.
  assert (Hin : In n (map Z.of_nat (seq 2 62))).
  { replace n with (Z.of_nat (Z.to_nat n)) by lia.
    apply in_map, in_seq. lia. }
  specialize (Hall n Hin). unfold binary64_agrees in Hall.
  destruct (niterations_binary64 (2 ^ n)) as [k|]; [|discriminate].
  rewrite (floor_certificate_sound _ _ Hall). reflexivity.
Qed.

(** At least one round for four basis states or more. *)
Lemma niterations_at_least_one N : 4 <= N -> 1 <= niterations_of N.
Proof.
  intros HN. unfold niterations_of. apply Zfloor_lub.
  pose proof PI_digits as [Hp _].
  assert (Hs : (2 <= sqrt (IZR N))%R).
  { rewrite <- (sqrt_square 2) by lra. apply sqrt_le_1_alt.
    apply IZR_le in HN. lra. }
  nra.
Qed.

Lemma init_rounds_at_least_one a b :
  1 <= niterations_of (nstates (__init__ a b)).
Proof.
  apply niterations_at_least_one.
  pose proof (init_nqubits_ge_2 a b) as H2.
  change (nstates (__init__ a b)) with (2 ^ nqubits (__init__ a b)).
  change 4 with (2 ^ 2). apply Z.pow_le_mono_r; lia.
Qed.

(** A register of 30 to 63 qubits: [np.eye] refuses the matrix in the first
    round, the call raises [ValueError] and leaves the Hadamard layer. *)
Lemma check_init_value_error sampler_run a b :
  30 <= nqubits (__init__ a b) <= 63 ->
  check_larger_or_equal sampler_run (__init__ a b) =
  (with_qc (__init__ a b)
     (qc_h (range (nqubits (__init__ a b))) (qc (__init__ a b))),
   Raise "ValueError").
Proof.
  intros Hn. apply check_raises_in_oracle.
  - apply init_nstates_small. lia.
  - apply init_rounds_at_least_one.
  - apply oracle_too_large. lia.
Qed.

(** A register of 64 qubits or more: [np.sqrt] refuses [2 ^ n], the call
    raises [TypeError] and leaves the Hadamard layer. *)
Lemma check_init_type_error sampler_run a b :
  64 <= nqubits (__init__ a b) ->
  check_larger_or_equal sampler_run (__init__ a b) =
  (with_qc (__init__ a b)
     (qc_h (range (nqubits (__init__ a b))) (qc (__init__ a b))),
   Raise "TypeError").
Proof.
  intros Hn. apply check_raises_in_sqrt. apply init_nstates_wide. exact Hn.
Qed.

(** A register numpy's sizes admit but the platform does not grant: the call
    raises [MemoryError] and leaves the Hadamard layer. *)
Lemma check_init_memory_error sampler_run a b :
  nqubits (__init__ a b) <= 29 ->
  memory_bytes < 8 * (2 ^ nqubits (__init__ a b) * 2 ^ nqubits (__init__ a b)) ->
  check_larger_or_equal sampler_run (__init__ a b) =
  (with_qc (__init__ a b)
     (qc_h (range (nqubits (__init__ a b))) (qc (__init__ a b))),
   Raise "MemoryError").
Proof.
  intros Hn Hm. pose proof (init_nqubits_ge_2 a b) as H2.
  apply check_raises_in_oracle.
  - apply init_nstates_small. lia.
  - apply init_rounds_at_least_one.
  - rewrite oracle_by_np_eye by apply init_marked_lt_nstates.
    rewrite np_eye_not_granted by (try assumption; lia). reflexivity.
Qed.

(** C1, amended: for every pair of integers whose register is buildable
    (width at most 29 and the oracle matrix granted by the platform) and
    every sampler that returns a distribution for the circuit built, the call
    answers [true] exactly when [a - b >= 0] and [false] exactly when
    [a - b < 0]; any other such sampler, whatever distribution it returns,
    leads to the same answer. *)
Theorem comparison_decided_by_difference
  (a b : Z) (sampler_run : QuantumCircuit -> result quasi_dist) (counts : quasi_dist) :
  buildable (nqubits (__init__ a b)) ->
  sampler_run (qc (fst (check_larger_or_equal sampler_run (__init__ a b)))) = Ok counts ->
  (snd (check_larger_or_equal sampler_run (__init__ a b)) = Ok true <-> a - b >= 0) /\
  (snd (check_larger_or_equal sampler_run (__init__ a b)) = Ok false <-> a - b < 0) /\
  (forall sampler_run' counts',
      sampler_run' (qc (fst (check_larger_or_equal sampler_run' (__init__ a b)))) = Ok counts' ->
      snd (check_larger_or_equal sampler_run' (__init__ a b)) =
      snd (check_larger_or_equal sampler_run (__init__ a b))).
Proof.
  intros Hb.
  assert (Hrun : forall s cs,
             s (qc (fst (check_larger_or_equal s (__init__ a b)))) = Ok cs ->
             snd (check_larger_or_equal s (__init__ a b)) = Ok (a - b >=? 0)).
  { intros s cs.
    destruct (check_larger_or_equal_init s a b Hb) as (oracle & _ & Hc).
    specialize (Hc (qc (__init__ a b))).
    change (with_qc (__init__ a b) (qc (__init__ a b))) with (__init__ a b) in Hc.
    rewrite Hc. cbv zeta. unfold fst, snd. intros Hs. rewrite Hs. reflexivity. }
  intros Hs. rewrite (Hrun _ _ Hs).
  repeat split.
  - intros H. injection H as H. apply Z.geb_le in H. lia.
  - intros H. f_equal. apply Z.geb_le. lia.
  - intros H. injection H as H. destruct (Z.geb_spec (a - b) 0); [discriminate|lia].
  - intros H. f_equal. destruct (Z.geb_spec (a - b) 0); [lia|reflexivity].
  - intros s' cs' Hs'. apply (Hrun _ _ Hs').
Qed.

Lemma length_rounds k o d : length (rounds k o d) = (2 * k)%nat.
Proof.
  unfold rounds. induction k as [|k IH]; [reflexivity|].
  cbn [repeat concat]. rewrite length_app, IH. simpl. lia.
Qed.

(** C5, amended: on a buildable register (width at most 29 and the oracle
    matrix granted by the platform) the call appends the Hadamard layer, then
    exactly [floor(pi / 4 * sqrt N)] rounds of oracle followed by diffuser
    with [N = 2 ^ n], the count being fixed before the first round, then the
    barrier and the measurement of every qubit.  The count is at least 1; it
    is 1 for [N = 4], 3 for [N = 16], 12 for [N = 256]; for every width up to
    63 numpy computes it, and its binary64 evaluation gives the same count. *)
Theorem iteration_count (a b : Z) (sampler_run : QuantumCircuit -> result quasi_dist) :
  let self := __init__ a b in
  let n := Z.to_nat (nqubits self) in
  let k := Zfloor (PI / 4 * sqrt (IZR (2 ^ nqubits self))) in
  (buildable (nqubits self) ->
   exists oracle,
      create_comparison_oracle self = Ok oracle /\
      data (qc (fst (check_larger_or_equal sampler_run self))) =
      map HGate (seq 0 n)
      ++ concat (repeat [oracle (seq 0 n); create_diffuser self (seq 0 n)] (Z.to_nat k))
      ++ Barrier (seq 0 n) :: map (fun q => Measure q q) (seq 0 n)) /\
  1 <= k /\
  niterations_of 4 = 1 /\ niterations_of 16 = 3 /\ niterations_of 256 = 12 /\
  (nqubits self <= 63 ->
   niterations_checked (nstates self) = Ok k /\
   niterations_binary64 (nstates self) = Some k).
Proof.
  intros self n k. repeat split.
  - intros Hb.
    destruct (check_larger_or_equal_init sampler_run a b Hb) as (oracle & Ho & Hc).
    exists oracle. split; [exact Ho|].
    specialize (Hc (qc (__init__ a b))).
    change (with_qc (__init__ a b) (qc (__init__ a b))) with (__init__ a b) in Hc.
    unfold self. rewrite Hc. reflexivity.
  - apply (init_rounds_at_least_one a b).
  - apply floor_certificate_sound. reflexivity.
  - apply floor_certificate_sound. reflexivity.
  - apply floor_certificate_sound. reflexivity.
  - apply niterations_checked_ok. apply init_nstates_small. assumption.
  - apply (niterations_binary64_exact (nqubits self)).
    pose proof (init_nqubits_ge_2 a b). unfold self in *. lia.
Qed.

(** ** What a call does to [self.qc] *)

Lemma appends_only_ret {A} (a : A) : appends_only (ret a).
Proof. intros self. exists []. simpl. rewrite app_nil_r. reflexivity. Qed.

Lemma appends_only_lift {A} (r : result A) : appends_only (lift r).
Proof. intros self. exists []. simpl. rewrite app_nil_r. reflexivity. Qed.

Lemma appends_only_get_self : appends_only get_self.
Proof. intros self. exists []. simpl. rewrite app_nil_r. reflexivity. Qed.

Lemma appends_only_update_qc u :
  (forall c, exists l, data (u c) = data c ++ l) -> appends_only (update_qc u).
Proof. intros Hu self. destruct (Hu (qc self)) as [l Hl]. exists l. exact Hl. Qed.

Lemma appends_only_bind {A B} (m : M A) (k : A -> M B) :
  appends_only m -> (forall a, appends_only (k a)) -> appends_only (bind m k).
Proof.
  intros Hm Hk self. unfold bind.
  destruct (Hm self) as [l Hl].
  destruct (m self) as [self' [a|e]]; simpl in *.
  - destruct (Hk a self') as [l' Hl']. exists (l ++ l').
    rewrite Hl', Hl, app_assoc. reflexivity.
  - exists l. exact Hl.
Qed.

Lemma appends_only_for_range k body :
  appends_only body -> appends_only (for_range k body).
Proof.
  intros Hb. induction k as [|k IH]; simpl.
  - apply appends_only_ret.
  - apply appends_only_bind; [exact Hb|intros _; exact IH].
Qed.

Lemma qc_add_appends l c : exists l', data (qc_add c l) = data c ++ l'.
Proof. exists l. reflexivity. Qed.

Create HintDb appends.

#[local] Hint Resolve appends_only_ret appends_only_lift appends_only_get_self
  appends_only_for_range qc_add_appends : appends.

Lemma appends_only_grover_iteration : appends_only grover_iteration.
Proof.
  unfold grover_iteration.
  repeat (apply appends_only_bind; [|intros ?]); auto with appends;
    apply appends_only_update_qc; intros c; apply qc_add_appends.
Qed.

Lemma appends_only_check_larger_or_equal sampler_run :
  appends_only (check_larger_or_equal sampler_run).
Proof.
  unfold check_larger_or_equal.
  apply appends_only_bind; [auto with appends|intros self].
  apply appends_only_bind;
    [apply appends_only_update_qc; intros c; apply qc_add_appends|intros _].
  apply appends_only_bind; [auto with appends|intros self1].
  apply appends_only_bind; [auto with appends|intros niterations].
  apply appends_only_bind;
    [apply appends_only_for_range, appends_only_grover_iteration|intros _].
  apply appends_only_bind;
    [apply appends_only_update_qc; intros c; eexists; reflexivity|intros _].
  apply appends_only_bind; [auto with appends|intros self2].
  apply appends_only_bind; [auto with appends|intros counts].
  destruct (most_likely counts) as [max_key max_value].
  apply appends_only_bind; auto with appends.
Qed.

(** C10, amended: a call only appends to [self.qc], whatever the instance
    and whatever the sampler does.  On a new instance with a buildable
    register the first call leaves the Hadamard layer, the rounds of oracle
    and diffuser, then the barrier and the measurement of every qubit [q]
    into the classical bit [q]; a second call on the same instance leaves
    that circuit followed by the whole algorithm once more, its Hadamard
    layer coming after the first measurement and its measurement going to
    the further classical bits [n + q]. *)
Theorem check_mutates_circuit_in_place
  (a b : Z) (sampler_run : QuantumCircuit -> result quasi_dist) :
  buildable (nqubits (__init__ a b)) ->
  let self0 := __init__ a b in
  let self1 := fst (check_larger_or_equal sampler_run self0) in
  let self2 := fst (check_larger_or_equal sampler_run self1) in
  let n := Z.to_nat (nqubits self0) in
  let k := Z.to_nat (Zfloor (PI / 4 * sqrt (IZR (2 ^ nqubits self0)))) in
  appends_only (check_larger_or_equal sampler_run) /\
  exists oracle,
    let appended (clbits : nat) :=
      map HGate (seq 0 n)
      ++ concat (repeat [oracle (seq 0 n); create_diffuser self0 (seq 0 n)] k)
      ++ Barrier (seq 0 n) :: map (fun q => Measure q (clbits + q)%nat) (seq 0 n) in
    create_comparison_oracle self0 = Ok oracle /\
    data (qc self0) = [] /\
    num_clbits (qc self0) = 0%nat /\
    data (qc self1) = appended 0%nat /\
    num_clbits (qc self1) = n /\
    data (qc self2) = appended 0%nat ++ appended n /\
    num_clbits (qc self2) = (2 * n)%nat /\
    data (qc self2) <> appended 0%nat.
Proof.
  intros Hb self0 self1 self2 n k.
  split; [apply appends_only_check_larger_or_equal|].
  destruct (check_larger_or_equal_init sampler_run a b Hb) as (oracle & Ho & Hc).
  exists oracle. intros appended.
  assert (Ha : forall c, appended c = algorithm self0 oracle c) by reflexivity.
  assert (H1 : self1 =
               with_qc self0
                 (mkQC None (Z.to_nat (nqubits self0)) (Z.to_nat (nqubits self0))
                       (algorithm self0 oracle 0))).
  { unfold self1, self0.
    pose proof (Hc (qc (__init__ a b))) as Hc0.
    change (with_qc (__init__ a b) (qc (__init__ a b))) with (__init__ a b) in Hc0.
    rewrite Hc0. reflexivity. }
  assert (H2 : data (qc self2) =
               algorithm self0 oracle 0
               ++ algorithm self0 oracle (Z.to_nat (nqubits self0))
               /\ num_clbits (qc self2) = (2 * Z.to_nat (nqubits self0))%nat).
  { unfold self2. rewrite H1. unfold self0. rewrite Hc. simpl. split; [reflexivity|lia]. }
  destruct H2 as [H2 H2c].
  rewrite !Ha.
  repeat split; try assumption.
  - rewrite H1. reflexivity.
  - rewrite H1. reflexivity.
  - rewrite H2. intros Heq.
    apply (f_equal (@length Instruction)) in Heq.
    rewrite length_app in Heq.
    unfold algorithm at 2 in Heq. rewrite !length_app in Heq.
    simpl in Heq. lia.
Qed.

(** ** The scan for the most likely key *)

Lemma exceeds_Fin value r : exceeds value (Fin r) = true <-> (value > r)%R.
Proof.
  simpl. destruct (Rgt_dec value r); split; intros H; try assumption;
    try reflexivity; try discriminate; contradiction.
Qed.

(** The scan, resumed with a running maximum [(key, value)] that was first
    seen after [pre] and has since met [mid], ends on an item that exceeds
    everything before it and is not exceeded by anything after it. *)
Lemma most_likely_from rest : forall pre key value mid,
  (forall x, In x pre -> (snd x < value)%R) ->
  (forall x, In x mid -> (snd x <= value)%R) ->
  exists pre' key' value' post',
    pre ++ (key, value) :: mid ++ rest = pre' ++ (key', value') :: post' /\
    fold_left most_likely_step rest (Some key, Fin value) = (Some key', Fin value') /\
    (forall x, In x pre' -> (snd x < value')%R) /\
    (forall x, In x post' -> (snd x <= value')%R).
Proof.
  induction rest as [|[k1 v1] rest IH]; intros pre key value mid Hpre Hmid.
  - exists pre, key, value, mid. rewrite app_nil_r. auto.
  - simpl fold_left. unfold most_likely_step at 2. simpl fst. simpl snd.
    destruct (exceeds v1 (Fin value)) eqn:He.
    + apply exceeds_Fin in He.
      destruct (IH (pre ++ (key, value) :: mid) k1 v1 []) as (pre' & k' & v' & post' & E & F & P1 & P2).
      * intros x Hx. apply in_app_or in Hx. destruct Hx as [Hx|[<-|Hx]].
        -- specialize (Hpre x Hx). lra.
        -- simpl. lra.
        -- specialize (Hmid x Hx). lra.
      * intros x [].
      * exists pre', k', v', post'. repeat split; try assumption.
        rewrite <- E. rewrite <- app_assoc. reflexivity.
    + assert (Hle : (v1 <= value)%R).
      { destruct (Rle_or_lt v1 value) as [|Hlt]; [assumption|].
        apply exceeds_Fin in Hlt. congruence. }
      destruct (IH pre key value (mid ++ [(k1, v1)])) as (pre' & k' & v' & post' & E & F & P1 & P2).
      * exact Hpre.
      * intros x Hx. apply in_app_or in Hx. destruct Hx as [Hx|[<-|[]]]; auto.
      * exists pre', k', v', post'. repeat split; try assumption.
        rewrite <- E. rewrite <- app_assoc. reflexivity.
Qed.

Lemma most_likely_first_seen (counts : quasi_dist) :
  counts <> [] ->
  exists pre key value post,
    counts = pre ++ (key, value) :: post /\
    most_likely counts = (Some key, Fin value) /\
    (forall x, In x pre -> (snd x < value)%R) /\
    (forall x, In x post -> (snd x <= value)%R).
Proof.
  destruct counts as [|[k v] rest]; [congruence|intros _].
  unfold most_likely. simpl fold_left. unfold most_likely_step at 2. simpl.
  destruct (most_likely_from rest [] k v []) as (pre' & k' & v' & post' & E & F & P1 & P2);
    try (intros x []).
  exists pre', k', v', post'. auto.
Qed.

Lemma sorted_after {A} (R : A -> A -> Prop) pre x post :
  StronglySorted R (pre ++ x :: post) -> forall y, In y post -> R x y.
Proof.
  induction pre as [|h pre IH]; simpl; intros Hs y Hy.
  - apply StronglySorted_inv in Hs. destruct Hs as [_ Hall].
    rewrite Forall_forall in Hall. auto.
  - apply StronglySorted_inv in Hs. destruct Hs as [Hs _]. eauto.
Qed.

(** C8 as stated fails: on the distribution that lists key 3 before key 0,
    each with probability 1/2, the scan selects key 3, whose probability is
    not strictly greater than that of the lower-indexed key 0. *)
Lemma most_likely_prefers_first_seen_to_lowest :
  most_likely [(3, (1 / 2)%R); (0, (1 / 2)%R)] = (Some 3, Fin (1 / 2)%R) /\
  ~ (forall k v, In (k, v) [(3, (1 / 2)%R); (0, (1 / 2)%R)] -> k < 3 -> (v < 1 / 2)%R).
Proof.
  split.
  - unfold most_likely, most_likely_step. simpl.
    destruct (Rgt_dec (1 / 2) (1 / 2)) as [H|_]; [exfalso; lra|]. reflexivity.
  - intros H. specialize (H 0 (1 / 2)%R). simpl in H.
    assert (1 / 2 < 1 / 2)%R by (apply H; [right; left; reflexivity|lia]). lra.
Qed.

(** C8, amended: the scan of a distribution of real probabilities selects a
    key of maximal probability, the first seen among equals in the iteration
    order of the items: every key has at most the probability of the selected
    one and every key listed before it has strictly less.  The selected key
    is the lowest index among equals, every lower-indexed key having
    strictly less, when the items are listed in ascending index order. *)
Theorem most_likely_is_first_seen_maximum (counts : quasi_dist) :
  counts <> [] ->
  exists pre key value post,
    counts = pre ++ (key, value) :: post /\
    most_likely counts = (Some key, Fin value) /\
    (forall k v, In (k, v) counts -> (v <= value)%R) /\
    (forall k v, In (k, v) pre -> (v < value)%R) /\
    (StronglySorted (fun x y => fst x < fst y) counts ->
     forall k v, In (k, v) counts -> k < key -> (v < value)%R).
Proof.
  intros Hne.
  destruct (most_likely_first_seen counts Hne) as (pre & key & value & post & E & F & P1 & P2).
  exists pre, key, value, post. repeat split; try assumption.
  - intros k v Hin. rewrite E in Hin. apply in_app_or in Hin.
    destruct Hin as [Hin|[Heq|Hin]].
    + specialize (P1 _ Hin). simpl in P1. lra.
    + injection Heq as _ <-. lra.
    + specialize (P2 _ Hin). exact P2.
  - intros k v Hin. apply (P1 _ Hin).
  - intros Hsorted k v Hin Hlt. rewrite E in Hin, Hsorted. apply in_app_or in Hin.
    destruct Hin as [Hin|[Heq|Hin]].
    + apply (P1 _ Hin).
    + injection Heq as <- _. lia.
    + pose proof (sorted_after _ _ _ _ Hsorted _ Hin) as Hgt. simpl in Hgt. lia.
Qed.

Lemma most_likely_is_first_seen_maximum_witness :
  exists pre key value post,
    [(2, (3 / 8)%R); (0, (1 / 4)%R); (1, (3 / 8)%R)] = pre ++ (key, value) :: post /\
    most_likely [(2, (3 / 8)%R); (0, (1 / 4)%R); (1, (3 / 8)%R)] = (Some key, Fin value) /\
    (forall k v, In (k, v) [(2, (3 / 8)%R); (0, (1 / 4)%R); (1, (3 / 8)%R)] -> (v <= value)%R) /\
    (forall k v, In (k, v) pre -> (v < value)%R) /\
    (StronglySorted (fun x y => fst x < fst y)
       [(2, (3 / 8)%R); (0, (1 / 4)%R); (1, (3 / 8)%R)] ->
     forall k v, In (k, v) [(2, (3 / 8)%R); (0, (1 / 4)%R); (1, (3 / 8)%R)] ->
                 k < key -> (v < value)%R).
Proof.
  apply (most_likely_is_first_seen_maximum [(2, (3 / 8)%R); (0, (1 / 4)%R); (1, (3 / 8)%R)]).
  discriminate.
Defined.

(** Listed in ascending index order, keys 1 and 2 equally likely: the scan
    selects key 1. *)
Example most_likely_tie :
  most_likely [(0, (1 / 4)%R); (1, (3 / 8)%R); (2, (3 / 8)%R)] = (Some 1, Fin (3 / 8)%R).
Proof.
  unfold most_likely, most_likely_step. simpl.
  destruct (Rgt_dec (3 / 8) (1 / 4)) as [_|H]; [|exfalso; lra]. simpl.
  destruct (Rgt_dec (3 / 8) (3 / 8)) as [H|_]; [exfalso; lra|].
  reflexivity.
Qed.

(* ================================================================= *)
(** ** Amplitude arithmetic *)

Lemma inv_sqrt2_sqr : (inv_sqrt2 * inv_sqrt2 = / 2)%R.
Proof.
  unfold inv_sqrt2.
  rewrite <- Rinv_mult, sqrt_sqrt by lra. reflexivity.
Qed.

Lemma inv_sqrt2_double : (2 * (inv_sqrt2 * inv_sqrt2) = 1)%R.
Proof. rewrite inv_sqrt2_sqr. lra. Qed.

Lemma C_eq (x y : C) : fst x = fst y -> snd x = snd y -> x = y.
Proof. destruct x, y; simpl; intros -> ->; reflexivity. Qed.

(** Equalities of amplitudes are checked on real and imaginary parts. *)
Ltac Cfield :=
  apply C_eq; unfold Cadd, Csub, Copp, Cmul, Cscale, RtoC, C0, C1; simpl;
  try lra; pose proof inv_sqrt2_double; nsatz.

Lemma Rsum_ext F G N :
  (forall i, (i < N)%nat -> F i = G i) -> Rsum F N = Rsum G N.
Proof.
  induction N as [|N IH]; intros H; simpl; [reflexivity|].
  rewrite IH, H by auto with arith. reflexivity.
Qed.

Lemma Rsum_plus F G N :
  Rsum (fun i => (F i + G i)%R) N = (Rsum F N + Rsum G N)%R.
Proof. induction N as [|N IH]; simpl; [lra|rewrite IH; lra]. Qed.

Lemma Rsum_scale c F N :
  Rsum (fun i => (c * F i)%R) N = (c * Rsum F N)%R.
Proof. induction N as [|N IH]; simpl; [lra|rewrite IH; lra]. Qed.

Lemma Rsum_const c N : Rsum (fun _ => c) N = (INR N * c)%R.
Proof.
  induction N as [|N IH]; [simpl; lra|].
  rewrite S_INR. simpl. rewrite IH. lra.
Qed.

Lemma Rsum_split F a b :
  Rsum F (a + b) = (Rsum F a + Rsum (fun i => F (a + i)%nat) b)%R.
Proof.
  induction b as [|b IH]; simpl.
  - rewrite Nat.add_0_r. lra.
  - rewrite Nat.add_succ_r. simpl. rewrite IH. lra.
Qed.

Lemma Rsum_single G k N :
  (k < N)%nat ->
  Rsum (fun c => if Nat.eqb c k then G c else 0%R) N = G k.
Proof.
  induction N as [|N IH]; intros Hk; [lia|]. simpl.
  destruct (Nat.eqb_spec N k) as [->|Hne].
  - rewrite (Rsum_ext _ (fun _ => 0%R)).
    + rewrite Rsum_const. lra.
    + intros i Hi. destruct (Nat.eqb_spec i k); [lia|reflexivity].
  - rewrite IH by lia. lra.
Qed.

Lemma fst_Csum F N : fst (Csum F N) = Rsum (fun i => fst (F i)) N.
Proof. induction N as [|N IH]; simpl; [reflexivity|rewrite IH; reflexivity]. Qed.

Lemma snd_Csum F N : snd (Csum F N) = Rsum (fun i => snd (F i)) N.
Proof. induction N as [|N IH]; simpl; [reflexivity|rewrite IH; reflexivity]. Qed.

Lemma Csum_ext F G N :
  (forall i, (i < N)%nat -> F i = G i) -> Csum F N = Csum G N.
Proof.
  intros H. apply C_eq; rewrite ?fst_Csum, ?snd_Csum; apply Rsum_ext;
    intros i Hi; rewrite H by assumption; reflexivity.
Qed.

Lemma Csum_split F a b :
  Csum F (a + b) = Cadd (Csum F a) (Csum (fun i => F (a + i)%nat) b).
Proof.
  apply C_eq; unfold Cadd; simpl; rewrite ?fst_Csum, ?snd_Csum;
    apply (Rsum_split (fun i => _ (F i))).
Qed.

Lemma Csum_single G k N :
  (k < N)%nat ->
  Csum (fun c => if Nat.eqb c k then G c else C0) N = G k.
Proof.
  intros Hk. apply C_eq; rewrite ?fst_Csum, ?snd_Csum.
  - rewrite <- (Rsum_single (fun c => fst (G c)) k N Hk).
    apply Rsum_ext. intros i _. destruct (Nat.eqb i k); reflexivity.
  - rewrite <- (Rsum_single (fun c => snd (G c)) k N Hk).
    apply Rsum_ext. intros i _. destruct (Nat.eqb i k); reflexivity.
Qed.

(** ** Basis indices and their bits *)

Lemma partner_involutive q i : partner q (partner q i) = i.
Proof.
  unfold partner. rewrite Nat.lxor_assoc, Nat.lxor_nilpotent, Nat.lxor_0_r. reflexivity.
Qed.

Lemma testbit_partner q i k :
  Nat.testbit (partner q i) k = xorb (Nat.testbit i k) (Nat.eqb q k).
Proof. unfold partner. rewrite Nat.lxor_spec, Nat.pow2_bits_eqb. reflexivity. Qed.

Lemma testbit_partner_same q i : Nat.testbit (partner q i) q = negb (Nat.testbit i q).
Proof. rewrite testbit_partner, Nat.eqb_refl. destruct (Nat.testbit i q); reflexivity. Qed.

Lemma testbit_partner_other q i k :
  q <> k -> Nat.testbit (partner q i) k = Nat.testbit i k.
Proof.
  intros Hne. rewrite testbit_partner.
  destruct (Nat.eqb_spec q k); [contradiction|]. apply xorb_false_r.
Qed.

Lemma partner_comm q k i : partner q (partner k i) = partner k (partner q i).
Proof.
  unfold partner. rewrite !Nat.lxor_assoc. f_equal. apply Nat.lxor_comm.
Qed.

Lemma testbit_above i n k : (i < 2 ^ n)%nat -> (n <= k)%nat -> Nat.testbit i k = false.
Proof.
  intros Hi Hk.
  assert (Hb : Nat.b2n (Nat.testbit i k) = O).
  { rewrite Nat.testbit_spec'. rewrite Nat.div_small; [reflexivity|].
    eapply Nat.lt_le_trans; [exact Hi|]. apply Nat.pow_le_mono_r; lia. }
  destruct (Nat.testbit i k); [discriminate|reflexivity].
Qed.

Lemma below_of_bits i n :
  (forall k, (n <= k)%nat -> Nat.testbit i k = false) -> (i < 2 ^ n)%nat.
Proof.
  intros Hbits.
  destruct (Nat.eq_dec i 0) as [->|Hne].
  - pose proof (Nat.pow_nonzero 2 n). lia.
  - apply Nat.log2_lt_pow2; [lia|].
    destruct (Nat.lt_ge_cases (Nat.log2 i) n) as [|Hge]; [assumption|exfalso].
    pose proof (Nat.bit_log2 i Hne) as Hb.
    rewrite (Hbits _ Hge) in Hb. discriminate.
Qed.

Lemma partner_lt q i n : (q < n)%nat -> (i < 2 ^ n)%nat -> (partner q i < 2 ^ n)%nat.
Proof.
  intros Hq Hi. apply below_of_bits. intros k Hk.
  rewrite testbit_partner_other by lia. apply (testbit_above i n k Hi Hk).
Qed.

Lemma partner_ge q i n : (q < n)%nat -> (2 ^ n <= i)%nat -> (2 ^ n <= partner q i)%nat.
Proof.
  intros Hq Hi.
  destruct (Nat.lt_ge_cases (partner q i) (2 ^ n)) as [Hlt|]; [exfalso|assumption].
  pose proof (partner_lt q _ n Hq Hlt) as H. rewrite partner_involutive in H. lia.
Qed.

(** Setting a clear bit adds its weight. *)
Lemma partner_add q i : Nat.testbit i q = false -> partner q i = (i + 2 ^ q)%nat.
Proof.
  intros Hb. unfold partner. symmetry. apply Nat.add_nocarry_lxor.
  apply Nat.bits_inj. intros k.
  rewrite Nat.land_spec, Nat.pow2_bits_eqb, Nat.bits_0.
  destruct (Nat.eqb_spec q k) as [<-|]; [rewrite Hb; reflexivity|apply andb_false_r].
Qed.

Lemma partner_top n i : (i < 2 ^ n)%nat -> partner n i = (2 ^ n + i)%nat.
Proof.
  intros Hi. rewrite partner_add by (apply (testbit_above i n n Hi); lia). lia.
Qed.

Lemma testbit_top n i : (i < 2 ^ n)%nat -> Nat.testbit (2 ^ n + i) n = true.
Proof.
  intros Hi. rewrite <- partner_top by assumption.
  rewrite testbit_partner_same, (testbit_above i n n Hi) by lia. reflexivity.
Qed.

Lemma testbit_add_top n i q :
  (i < 2 ^ n)%nat -> (q < n)%nat -> Nat.testbit (2 ^ n + i) q = Nat.testbit i q.
Proof.
  intros Hi Hq. rewrite <- partner_top by assumption.
  apply testbit_partner_other. lia.
Qed.

Lemma partner_add_top n i q :
  (i < 2 ^ n)%nat -> (q < n)%nat -> partner q (2 ^ n + i) = (2 ^ n + partner q i)%nat.
Proof.
  intros Hi Hq. rewrite <- !partner_top; auto using partner_lt.
  apply partner_comm.
Qed.

Lemma testbit_complement n i k :
  Nat.testbit (complement n i) k =
  if Nat.ltb k n then negb (Nat.testbit i k) else Nat.testbit i k.
Proof.
  revert i; induction n as [|n IH]; intros i; simpl complement.
  - reflexivity.
  - rewrite IH, testbit_partner.
    destruct (Nat.ltb_spec k n), (Nat.ltb_spec k (S n)), (Nat.eqb_spec n k);
      try lia; destruct (Nat.testbit i k); reflexivity.
Qed.

Lemma complement_involutive n i : complement n (complement n i) = i.
Proof.
  apply Nat.bits_inj. intros k. rewrite !testbit_complement.
  destruct (Nat.ltb k n); [apply negb_involutive|reflexivity].
Qed.

Lemma low_bits_clear n i :
  (i < 2 ^ n)%nat ->
  forallb (fun k => negb (Nat.testbit i k)) (seq 0 n) = Nat.eqb i 0.
Proof.
  intros Hi. destruct (Nat.eqb_spec i 0) as [->|Hne].
  - apply forallb_forall. intros k _. rewrite Nat.bits_0. reflexivity.
  - apply not_true_is_false. intros Hall. apply Hne.
    rewrite forallb_forall in Hall.
    apply Nat.bits_inj. intros k. rewrite Nat.bits_0.
    destruct (Nat.lt_ge_cases k n) as [Hk|Hk].
    + specialize (Hall k (proj2 (in_seq _ _ _) (conj (Nat.le_0_l k) Hk))).
      destruct (Nat.testbit i k); [discriminate|reflexivity].
    + apply (testbit_above i n k Hi Hk).
Qed.

(** ** The Hadamard gate and the Hadamard layer *)

(** The gates on small inputs: H spreads the ground state over indices 0 and
    1, X moves it to index 1, and the controlled X moves index 1 (control
    qubit 0 set) to index 3 and leaves index 2 (control clear) in place. *)
Example hadamard_on_ground :
  hadamard 0 ground 0%nat = RtoC inv_sqrt2 /\ hadamard 0 ground 1%nat = RtoC inv_sqrt2.
Proof. unfold hadamard, partner, ground. simpl. split; Cfield. Qed.

Example pauli_x_on_ground : pauli_x 0 ground 1%nat = C1 /\ pauli_x 0 ground 0%nat = C0.
Proof. split; reflexivity. Qed.

Example mcx_on_basis_states :
  mcx [O] 1 (fun i => if Nat.eqb i 1 then C1 else C0) 3%nat = C1 /\
  mcx [O] 1 (fun i => if Nat.eqb i 1 then C1 else C0) 1%nat = C0 /\
  mcx [O] 1 (fun i => if Nat.eqb i 2 then C1 else C0) 2%nat = C1.
Proof. repeat split. Qed.

Lemma hadamard_involutive q f : hadamard q (hadamard q f) = f.
Proof.
  apply functional_extensionality. intros i. unfold hadamard.
  rewrite testbit_partner_same, partner_involutive.
  destruct (Nat.testbit i q); simpl; Cfield.
Qed.

Lemma hadamard_comm q k f :
  q <> k -> hadamard q (hadamard k f) = hadamard k (hadamard q f).
Proof.
  intros Hne. apply functional_extensionality. intros i. unfold hadamard.
  rewrite !(testbit_partner_other q _ k), !(testbit_partner_other k _ q) by auto.
  rewrite (partner_comm q k i).
  destruct (Nat.testbit i q), (Nat.testbit i k); Cfield.
Qed.

Lemma hadamard_all_comm n m f :
  (n <= m)%nat -> hadamard_all n (hadamard m f) = hadamard m (hadamard_all n f).
Proof.
  intros Hnm. induction n as [|n IH]; simpl; [reflexivity|].
  rewrite IH by lia. apply hadamard_comm. lia.
Qed.

Lemma hadamard_all_involutive n f : hadamard_all n (hadamard_all n f) = f.
Proof.
  revert f; induction n as [|n IH]; intros f; simpl; [reflexivity|].
  rewrite hadamard_all_comm, hadamard_involutive by lia. apply IH.
Qed.

(** Linearity, in the shape the diffuser needs. *)
Lemma hadamard_sub_scaled q (g h : state) (c : C) :
  hadamard q (fun j => Csub (g j) (Cmul c (h j))) =
  fun i => Csub (hadamard q g i) (Cmul c (hadamard q h i)).
Proof.
  apply functional_extensionality. intros i. unfold hadamard.
  destruct (Nat.testbit i q); Cfield.
Qed.

Lemma hadamard_all_sub_scaled n (g h : state) (c : C) :
  hadamard_all n (fun j => Csub (g j) (Cmul c (h j))) =
  fun i => Csub (hadamard_all n g i) (Cmul c (hadamard_all n h i)).
Proof.
  induction n as [|n IH]; simpl; [reflexivity|].
  rewrite IH. apply hadamard_sub_scaled.
Qed.

(** Below [2 ^ n] the layer only reads amplitudes below [2 ^ n]. *)
Lemma hadamard_local q n (g h : state) :
  (q < n)%nat ->
  (forall j, (j < 2 ^ n)%nat -> g j = h j) ->
  forall i, (i < 2 ^ n)%nat -> hadamard q g i = hadamard q h i.
Proof.
  intros Hq Hgh i Hi. unfold hadamard.
  rewrite (Hgh i Hi), (Hgh _ (partner_lt q i n Hq Hi)). reflexivity.
Qed.

Lemma hadamard_all_local m n (g h : state) :
  (m <= n)%nat ->
  (forall j, (j < 2 ^ n)%nat -> g j = h j) ->
  forall i, (i < 2 ^ n)%nat -> hadamard_all m g i = hadamard_all m h i.
Proof.
  intros Hm Hgh. induction m as [|m IH]; simpl; [exact Hgh|].
  apply (hadamard_local m n); [lia|]. apply IH. lia.
Qed.

(** The amplitude the layer leaves at an index whose [n] lowest bits are
    clear is the scaled sum of the amplitudes of the block above it. *)
Lemma hadamard_all_at_base n : forall f b,
  (forall k, (k < n)%nat -> Nat.testbit b k = false) ->
  hadamard_all n f b = Cscale (inv_sqrt2 ^ n) (Csum (fun j => f (b + j)%nat) (2 ^ n)).
Proof.
  induction n as [|n IH]; intros f b Hb.
  - simpl. rewrite Nat.add_0_r. Cfield.
  - simpl hadamard_all. unfold hadamard at 1.
    rewrite (Hb n) by lia.
    rewrite (partner_add n b) by (apply Hb; lia).
    rewrite (IH f b) by (intros k Hk; apply Hb; lia).
    rewrite (IH f (b + 2 ^ n)%nat).
    + replace (2 ^ S n)%nat with (2 ^ n + 2 ^ n)%nat by (simpl; lia).
      rewrite Csum_split.
      rewrite (Csum_ext (fun i => f (b + (2 ^ n + i))%nat)
                        (fun j => f (b + 2 ^ n + j)%nat))
        by (intros i _; f_equal; lia).
      simpl pow. Cfield.
    + intros k Hk. rewrite <- (partner_add n b) by (apply Hb; lia).
      rewrite testbit_partner_other by lia. apply Hb. lia.
Qed.

Lemma hadamard_all_at_zero n f :
  hadamard_all n f O = Cscale (inv_sqrt2 ^ n) (Csum f (2 ^ n)).
Proof.
  rewrite hadamard_all_at_base by (intros k _; apply Nat.bits_0). reflexivity.
Qed.

(** The Hadamard fan-out of the ground state is the uniform superposition. *)
Lemma hadamard_all_ground n : forall i,
  hadamard_all n ground i =
  if Nat.ltb i (2 ^ n) then RtoC (inv_sqrt2 ^ n) else C0.
Proof.
  induction n as [|n IH]; intros i.
  - simpl. unfold ground. destruct i; reflexivity.
  - simpl hadamard_all. unfold hadamard. rewrite !IH.
    assert (Hpow : (2 ^ S n = 2 ^ n + 2 ^ n)%nat) by (simpl; lia).
    destruct (Nat.ltb_spec i (2 ^ n)) as [Hlo|Hhi].
    + rewrite (testbit_above i n n Hlo) by lia.
      rewrite (partner_top n i Hlo).
      destruct (Nat.ltb_spec (2 ^ n + i) (2 ^ n)); [lia|].
      destruct (Nat.ltb_spec i (2 ^ S n)); [|lia].
      simpl pow. Cfield.
    + destruct (Nat.ltb_spec i (2 ^ S n)) as [Hlt|Hge].
      * remember (i - 2 ^ n)%nat as j eqn:Ej.
        assert (Hj : (j < 2 ^ n)%nat) by lia.
        assert (Ei : i = (2 ^ n + j)%nat) by lia.
        clear Ej. subst i.
        rewrite (testbit_top n _ Hj).
        rewrite <- (partner_top n _ Hj), partner_involutive.
        destruct (Nat.ltb_spec j (2 ^ n)); [|lia].
        simpl pow. Cfield.
      * assert (Hp : (2 ^ S n <= partner n i)%nat) by (apply partner_ge; [lia|assumption]).
        destruct (Nat.ltb_spec (partner n i) (2 ^ n)); [lia|].
        destruct (Nat.testbit i n); Cfield.
Qed.

Lemma inv_sqrt2_pow n : (inv_sqrt2 ^ n * inv_sqrt2 ^ n = / INR (2 ^ n))%R.
Proof.
  rewrite <- Rpow_mult_distr, inv_sqrt2_sqr, pow_INR, pow_inv. reflexivity.
Qed.

(** ** The layer of X gates and the multi-controlled phase flip *)

Lemma pauli_x_all_complement n f : pauli_x_all n f = fun i => f (complement n i).
Proof.
  revert f; induction n as [|n IH]; intros f; simpl; [reflexivity|].
  rewrite IH. reflexivity.
Qed.

Lemma controls_partner t cs i :
  ~ In t cs ->
  forallb (Nat.testbit (partner t i)) cs = forallb (Nat.testbit i) cs.
Proof.
  intros Hnot. induction cs as [|c cs IH]; simpl; [reflexivity|].
  rewrite testbit_partner_other by (intros ->; apply Hnot; left; reflexivity).
  rewrite IH by (intros Hin; apply Hnot; right; exact Hin). reflexivity.
Qed.

(** H on the target, the multi-controlled X, H on the target again: the sign
    of the amplitude flips where the controls and the target are all set. *)
Lemma hadamard_mcx_hadamard t cs f :
  ~ In t cs ->
  hadamard t (mcx cs t (hadamard t f)) =
  fun i => if (forallb (Nat.testbit i) cs && Nat.testbit i t)%bool
           then Copp (f i) else f i.
Proof.
  intros Hnot. apply functional_extensionality. intros i.
  unfold hadamard, mcx.
  rewrite (controls_partner t cs i Hnot).
  rewrite !partner_involutive, !testbit_partner_same.
  destruct (forallb (Nat.testbit i) cs), (Nat.testbit i t); simpl; Cfield.
Qed.

Lemma forallb_agree {A} (p p' : A -> bool) l :
  (forall x, In x l -> p x = p' x) -> forallb p l = forallb p' l.
Proof.
  induction l as [|h t IH]; intros H; simpl; [reflexivity|].
  rewrite (H h) by (left; reflexivity).
  rewrite IH by (intros x Hx; apply H; right; exact Hx). reflexivity.
Qed.

Lemma all_set_complement n i :
  forallb (Nat.testbit (complement n i)) (seq 0 n) =
  forallb (fun k => negb (Nat.testbit i k)) (seq 0 n).
Proof.
  apply forallb_agree. intros k Hk. apply in_seq in Hk.
  rewrite testbit_complement.
  destruct (Nat.ltb_spec k n); [reflexivity|lia].
Qed.

(** ** Running instruction lists *)

Lemma run_app place l1 l2 f : run place (l1 ++ l2) f = run place l2 (run place l1 f).
Proof. unfold run. apply fold_left_app. Qed.

Lemma apply_composite place name body qs f :
  apply_instr place (Composite name body qs) f =
  run (fun q => place (nth q qs q)) body f.
Proof.
  simpl. unfold run. revert f.
  induction body as [|g body IH]; intros f; simpl; [reflexivity|apply IH].
Qed.

(** Placed on [range(n)], a sub-circuit keeps its qubit numbers. *)
Lemma place_range n : (fun q => nth q (range n) q) = (fun q : nat => q).
Proof.
  apply functional_extensionality. intros q. unfold range.
  destruct (Nat.lt_ge_cases q (Z.to_nat n)) as [Hq|Hq].
  - rewrite seq_nth by assumption. reflexivity.
  - apply nth_overflow. rewrite length_seq. assumption.
Qed.

Lemma run_hadamards n f : run (fun q => q) (map HGate (seq 0 n)) f = hadamard_all n f.
Proof.
  induction n as [|n IH]; [reflexivity|].
  rewrite seq_S, map_app, run_app, IH. reflexivity.
Qed.

Lemma run_xs n f : run (fun q => q) (map XGate (seq 0 n)) f = pauli_x_all n f.
Proof.
  induction n as [|n IH]; [reflexivity|].
  rewrite seq_S, map_app, run_app, IH. reflexivity.
Qed.

Lemma map_id_seq (l : list nat) : map (fun q : nat => q) l = l.
Proof. apply map_id. Qed.

(** ** The diffuser *)

Lemma data_qc_add c l : data (qc_add c l) = data c ++ l.
Proof. reflexivity. Qed.

Lemma qc_name_qc_add c l : qc_name (qc_add c l) = qc_name c.
Proof. reflexivity. Qed.

Lemma create_diffuser_body self :
  create_diffuser self =
  fun qs =>
    Composite "Diffuser"
      (map HGate (range (nqubits self)) ++ map XGate (range (nqubits self))
       ++ [Barrier (range (nqubits self));
           HGate (Z.to_nat (nqubits self - 1));
           MCXGate (range (nqubits self - 1)) (Z.to_nat (nqubits self - 1));
           HGate (Z.to_nat (nqubits self - 1));
           Barrier (range (nqubits self))]
       ++ map XGate (range (nqubits self)) ++ map HGate (range (nqubits self))) qs.
Proof.
  unfold create_diffuser, to_instruction, qc_h, qc_x, qc_barrier, qc_mcx.
  cbv zeta. apply functional_extensionality. intros qs.
  rewrite !data_qc_add, !qc_name_qc_add. simpl data. simpl qc_name.
  rewrite <- !app_assoc. reflexivity.
Qed.

Lemma diffuser_gates self f :
  2 <= nqubits self ->
  let n := Z.to_nat (nqubits self) in
  let last := Nat.pred n in
  apply_instr (fun q => q) (create_diffuser self (range (nqubits self))) f =
  hadamard_all n
    (pauli_x_all n
       (hadamard last (mcx (seq 0 last) last (hadamard last
          (pauli_x_all n (hadamard_all n f)))))).
Proof.
  intros Hn n last.
  rewrite create_diffuser_body, apply_composite, place_range.
  assert (Hlast : Z.to_nat (nqubits self - 1) = last) by (unfold last, n; lia).
  rewrite Hlast. unfold range. rewrite Hlast. fold n.
  rewrite !run_app, !run_hadamards, !run_xs.
  unfold run. cbn [fold_left apply_instr].
  rewrite map_id_seq. reflexivity.
Qed.

(** Between the two Hadamard layers the gates flip the sign of the amplitudes
    whose [n] lowest index bits are clear. *)
Lemma phase_flip_on_zero m (g : state) :
  pauli_x_all (S m)
    (hadamard m (mcx (seq 0 m) m (hadamard m (pauli_x_all (S m) g)))) =
  fun i => if forallb (fun k => negb (Nat.testbit i k)) (seq 0 (S m))
           then Copp (g i) else g i.
Proof.
  rewrite hadamard_mcx_hadamard by (rewrite in_seq; lia).
  rewrite !pauli_x_all_complement.
  apply functional_extensionality. intros i.
  rewrite complement_involutive.
  rewrite <- all_set_complement.
  rewrite seq_S, forallb_app. simpl. rewrite andb_true_r. reflexivity.
Qed.

Lemma diffuser_closed_form self f i :
  2 <= nqubits self ->
  (i < 2 ^ Z.to_nat (nqubits self))%nat ->
  apply_instr (fun q => q) (create_diffuser self (range (nqubits self))) f i =
  Csub (f i) (Cscale 2 (mean (Z.to_nat (nqubits self)) f)).
Proof.
  intros Hn Hi. rewrite diffuser_gates by assumption. cbv zeta.
  remember (Z.to_nat (nqubits self)) as n eqn:En.
  destruct n as [|m]; [lia|]. simpl Nat.pred.
  rewrite phase_flip_on_zero.
  set (g := hadamard_all (S m) f).
  rewrite (hadamard_all_local (S m) (S m) _
             (fun j => Csub (g j) (Cmul (Cscale 2 (g O)) (ground j))));
    [|lia| |assumption].
  - rewrite hadamard_all_sub_scaled. unfold g.
    rewrite hadamard_all_involutive, hadamard_all_at_zero, hadamard_all_ground.
    destruct (Nat.ltb_spec i (2 ^ S m)); [|lia].
    unfold mean. pose proof (inv_sqrt2_pow (S m)) as Hs.
    apply C_eq; unfold Cadd, Csub, Copp, Cmul, Cscale, RtoC; cbn [fst snd];
      rewrite <- Hs; ring.
  - intros j Hj. rewrite (low_bits_clear (S m) j Hj). unfold ground.
    destruct (Nat.eqb_spec j 0) as [->|]; Cfield.
Qed.

(** ** The oracle *)

Lemma assign_same q i : assign q (Nat.testbit i q) i = i.
Proof. unfold assign. rewrite eqb_reflx. reflexivity. Qed.

Lemma scatter_gather qs i : scatter qs (gather qs i) i = i.
Proof.
  induction qs as [|q qs IH]; cbn [scatter gather]; [reflexivity|].
  assert (Hodd : Nat.odd (Nat.b2n (Nat.testbit i q) + 2 * gather qs i) = Nat.testbit i q).
  { rewrite Nat.odd_add_mul_2. destruct (Nat.testbit i q); reflexivity. }
  assert (Hdiv : ((Nat.b2n (Nat.testbit i q) + 2 * gather qs i) / 2 = gather qs i)%nat).
  { rewrite (Nat.mul_comm 2), Nat.div_add by lia.
    destruct (Nat.testbit i q); reflexivity. }
  rewrite Hodd, Hdiv, assign_same. exact IH.
Qed.

Lemma gather_seq n : forall s i, gather (seq s n) i = ((i / 2 ^ s) mod 2 ^ n)%nat.
Proof.
  induction n as [|n IH]; intros s i; cbn [seq gather].
  - simpl. reflexivity.
  - rewrite IH, Nat.testbit_spec'.
    replace (2 ^ S n)%nat with (2 * 2 ^ n)%nat by reflexivity.
    rewrite Nat.Div0.mod_mul_r, Nat.Div0.div_div.
    replace (2 ^ S s)%nat with (2 ^ s * 2)%nat by (simpl; lia).
    reflexivity.
Qed.

Lemma gather_range n i : (i < 2 ^ n)%nat -> gather (seq 0 n) i = i.
Proof.
  intros Hi. rewrite gather_seq, Nat.pow_0_r.
  rewrite Nat.div_1_r. apply Nat.mod_small. assumption.
Qed.

Lemma entry_marked_eye N k r c :
  (k < Z.to_nat N)%nat -> (r < Z.to_nat N)%nat -> (c < Z.to_nat N)%nat ->
  entry (marked_eye N k) r c =
  if Nat.eqb c r then (if Nat.eqb r k then Copp C1 else C1) else C0.
Proof.
  intros Hk Hr Hc. unfold entry. rewrite marked_eye_entry by assumption.
  rewrite (Nat.eqb_sym c r).
  destruct (Nat.eqb r c), (Nat.eqb r k); Cfield.
Qed.

(** The unitary built from the marked identity negates the amplitude at the
    marked index and keeps every other one. *)
Lemma marked_eye_action n k f i :
  (k < 2 ^ n)%nat -> (i < 2 ^ n)%nat ->
  unitary (marked_eye (Z.of_nat (2 ^ n)) k) (seq 0 n) f i =
  if Nat.eqb i k then Copp (f i) else f i.
Proof.
  intros Hk Hi. unfold unitary. rewrite length_seq, gather_range by assumption.
  rewrite (Csum_ext _ (fun c => if Nat.eqb c i
                                then Cmul (if Nat.eqb i k then Copp C1 else C1)
                                          (f (scatter (seq 0 n) c i))
                                else C0)).
  - rewrite Csum_single by assumption.
    rewrite <- (gather_range n i Hi) at 2. rewrite scatter_gather.
    destruct (Nat.eqb i k); Cfield.
  - intros c Hc. rewrite entry_marked_eye by (rewrite Nat2Z.id; assumption).
    destruct (Nat.eqb c i); [reflexivity|Cfield].
Qed.

Lemma marked_eye_rows_orthonormal N k r r' :
  (k < Z.to_nat N)%nat -> (r < Z.to_nat N)%nat -> (r' < Z.to_nat N)%nat ->
  Rsum (fun c => (IZR (nth c (nth r (marked_eye N k) []) 0%Z)
                  * IZR (nth c (nth r' (marked_eye N k) []) 0%Z))%R) (Z.to_nat N) =
  if Nat.eqb r r' then 1%R else 0%R.
Proof.
  intros Hk Hr Hr'.
  rewrite (Rsum_ext _ (fun c => if Nat.eqb c r
                                then (if Nat.eqb r r' then 1%R else 0%R) else 0%R)).
  - apply (Rsum_single (fun _ => if Nat.eqb r r' then 1%R else 0%R)). assumption.
  - intros c Hc. rewrite !marked_eye_entry by assumption.
    rewrite (Nat.eqb_sym c r).
    destruct (Nat.eqb_spec r c) as [->|Hrc].
    + destruct (Nat.eqb_spec c r') as [<-|Hcr].
      * rewrite Nat.eqb_refl. destruct (Nat.eqb c k); lra.
      * destruct (Nat.eqb_spec r' c) as [->|_]; [congruence|]. lra.
    + lra.
Qed.

Lemma nqubits_nonneg_of_marked self :
  0 <= marked_index self < 2 ^ nqubits self -> 0 <= nqubits self.
Proof.
  intros [H0 H1].
  destruct (Z_lt_le_dec (nqubits self) 0) as [Hneg|]; [|assumption].
  rewrite Z.pow_neg_r in H1 by assumption. lia.
Qed.

Lemma pow2_of_nat n : 0 <= n -> 2 ^ n = Z.of_nat (2 ^ Z.to_nat n).
Proof.
  intros Hn. rewrite <- to_nat_pow2 by lia.
  symmetry. apply Z2Nat.id. apply Z.pow_nonneg. lia.
Qed.

Lemma marked_below self :
  0 <= marked_index self < 2 ^ nqubits self ->
  (Z.to_nat (marked_index self) < 2 ^ Z.to_nat (nqubits self))%nat.
Proof.
  intros H. pose proof (nqubits_nonneg_of_marked self H) as Hn.
  rewrite <- to_nat_pow2 by assumption. lia.
Qed.

(** Whenever the oracle is returned, it is the instruction named
    [Oracle(>=)] around the unitary of the marked identity. *)
Lemma oracle_ok_form self oracle :
  0 <= marked_index self < 2 ^ nqubits self ->
  create_comparison_oracle self = Ok oracle ->
  oracle = fun qs =>
    Composite "Oracle(>=)"
      [UnitaryGate (marked_eye (2 ^ nqubits self) (Z.to_nat (marked_index self)))
                   (range (nqubits self))] qs.
Proof.
  intros Hm Ho. rewrite oracle_by_np_eye in Ho by assumption.
  destruct (np_eye (2 ^ nqubits self)); simpl in Ho; [|discriminate].
  destruct (Operator _); simpl in Ho; [|discriminate].
  injection Ho as <-. reflexivity.
Qed.

Lemma oracle_action self oracle f i :
  0 <= marked_index self < 2 ^ nqubits self ->
  create_comparison_oracle self = Ok oracle ->
  (i < 2 ^ Z.to_nat (nqubits self))%nat ->
  apply_instr (fun q => q) (oracle (range (nqubits self))) f i =
  applyDiagonalPhaseFlip (Z.to_nat (marked_index self)) f i.
Proof.
  intros Hm Ho Hi.
  rewrite (oracle_ok_form self oracle Hm Ho).
  rewrite apply_composite, place_range. unfold run. cbn [fold_left apply_instr].
  rewrite map_id_seq. unfold range.
  rewrite (pow2_of_nat (nqubits self)) by (apply nqubits_nonneg_of_marked; assumption).
  apply marked_eye_action; [apply marked_below|]; assumption.
Qed.

(** The instruction of [oracle_ok_form], placed on the whole register, is
    the phase flip at the marked index. *)
Lemma marked_unitary_action self f i :
  0 <= marked_index self < 2 ^ nqubits self ->
  (i < 2 ^ Z.to_nat (nqubits self))%nat ->
  apply_instr (fun q => q)
    (Composite "Oracle(>=)"
       [UnitaryGate (marked_eye (2 ^ nqubits self) (Z.to_nat (marked_index self)))
                    (range (nqubits self))]
       (range (nqubits self))) f i =
  applyDiagonalPhaseFlip (Z.to_nat (marked_index self)) f i.
Proof.
  intros Hm Hi.
  rewrite apply_composite, place_range. unfold run. cbn [fold_left apply_instr].
  rewrite map_id_seq. unfold range.
  rewrite (pow2_of_nat (nqubits self)) by (apply nqubits_nonneg_of_marked; assumption).
  apply marked_eye_action; [apply marked_below|]; assumption.
Qed.

(** C3: whatever the width [n] and the marked index below [2 ^ n], the oracle
    is the unitary of a [2 ^ n] by [2 ^ n] diagonal matrix, the identity but
    for [-1] at the marked index, with orthonormal rows; applied to a state it
    negates the amplitude at the marked index and keeps all the others.  It
    is this instruction that the method returns, whenever it returns, and it
    returns on every buildable register. *)
Theorem oracle_is_marked_phase_flip (self : GroverComparator) :
  0 <= marked_index self < 2 ^ nqubits self ->
  let N := (2 ^ Z.to_nat (nqubits self))%nat in
  let k := Z.to_nat (marked_index self) in
  exists m,
    (buildable (nqubits self) ->
     create_comparison_oracle self =
       Ok (fun qs => Composite "Oracle(>=)" [UnitaryGate m (range (nqubits self))] qs)) /\
    (forall oracle,
       create_comparison_oracle self = Ok oracle ->
       oracle = fun qs => Composite "Oracle(>=)" [UnitaryGate m (range (nqubits self))] qs) /\
    length m = N /\
    (forall r c, (r < N)%nat -> (c < N)%nat ->
       nth c (nth r m []) 0 = if Nat.eqb r c then (if Nat.eqb r k then -1 else 1) else 0) /\
    (forall r r', (r < N)%nat -> (r' < N)%nat ->
       Rsum (fun c => (IZR (nth c (nth r m []) 0%Z) * IZR (nth c (nth r' m []) 0%Z))%R) N =
       if Nat.eqb r r' then 1%R else 0%R) /\
    (forall f i, (i < N)%nat ->
       apply_instr (fun q => q)
         (Composite "Oracle(>=)" [UnitaryGate m (range (nqubits self))]
                    (range (nqubits self))) f i =
       if Nat.eqb i k then Copp (f i) else f i).
Proof.
  intros Hm N k.
  pose proof (nqubits_nonneg_of_marked self Hm) as Hn.
  pose proof (marked_below self Hm) as Hk.
  assert (HN : Z.to_nat (2 ^ nqubits self) = N) by (apply to_nat_pow2; assumption).
  exists (marked_eye (2 ^ nqubits self) k).
  split; [intros Hb; apply oracle_of_marked_in_range; assumption|].
  split; [intros oracle Ho; apply oracle_ok_form; assumption|].
  split; [unfold marked_eye; rewrite length_list_set, length_eye; exact HN|].
  split; [intros r c Hr Hc; apply marked_eye_entry; rewrite HN; assumption|].
  split.
  - intros r r' Hr Hr'. rewrite <- HN.
    apply marked_eye_rows_orthonormal; rewrite HN; assumption.
  - intros f i Hi. apply (marked_unitary_action self f i Hm Hi).
Qed.

Lemma mean_ground_2 : mean 2 ground = RtoC (/ 4).
Proof.
  unfold mean, ground. simpl. apply C_eq; unfold Cscale, Cadd, C0, C1, RtoC; simpl; lra.
Qed.

(** C4 as stated fails: on two qubits, at the ground state, the gate sequence
    leaves amplitude [1/2] at index 0 where the reflection [2|s><s| - I] gives
    [-1/2]; the two differ by 1, not by at most [1e-9]. *)
Lemma diffuser_differs_from_reflection :
  apply_instr (fun q => q) (create_diffuser (__init__ 5 3) (range 2)) ground O
    = RtoC (1 / 2) /\
  applyDiffusionReflection 2 ground O = RtoC (- (1 / 2)) /\
  ~ (Cnorm2 (Csub (apply_instr (fun q => q)
                     (create_diffuser (__init__ 5 3) (range 2)) ground O)
                  (applyDiffusionReflection 2 ground O))
     <= (/ 1000000000) * (/ 1000000000))%R.
Proof.
  assert (Hgate : apply_instr (fun q => q) (create_diffuser (__init__ 5 3) (range 2)) ground O
                  = RtoC (1 / 2)).
  { change (range 2) with (range (nqubits (__init__ 5 3))).
    rewrite (diffuser_closed_form (__init__ 5 3) ground O) by (simpl; lia).
    change (Z.to_nat (nqubits (__init__ 5 3))) with 2%nat. rewrite mean_ground_2.
    unfold ground. simpl. Cfield. }
  assert (Hrefl : applyDiffusionReflection 2 ground O = RtoC (- (1 / 2))).
  { unfold applyDiffusionReflection. rewrite mean_ground_2. unfold ground. simpl. Cfield. }
  split; [exact Hgate|]. split; [exact Hrefl|].
  rewrite Hgate, Hrefl. unfold Cnorm2, Csub, RtoC. simpl. lra.
Qed.

(** C4, amended: on any width [n >= 2] the gate sequence sends every state to
    [v[i] - 2 * mean(v)], the reflection [2|s><s| - I] with the opposite sign,
    so with the same probabilities; the diffuser depends on the width only. *)
Theorem diffuser_is_negated_reflection (self : GroverComparator) :
  2 <= nqubits self ->
  let n := Z.to_nat (nqubits self) in
  let diffuser := apply_instr (fun q => q) (create_diffuser self (range (nqubits self))) in
  (forall f i, (i < 2 ^ n)%nat ->
      diffuser f i = Csub (f i) (Cscale 2 (mean n f)) /\
      diffuser f i = Copp (applyDiffusionReflection n f i) /\
      Cnorm2 (diffuser f i) = Cnorm2 (applyDiffusionReflection n f i)) /\
  (forall self', nqubits self' = nqubits self -> create_diffuser self' = create_diffuser self).
Proof.
  intros Hn n diffuser. split.
  - intros f i Hi. unfold diffuser. rewrite diffuser_closed_form by assumption.
    fold n. unfold applyDiffusionReflection.
    repeat split; [Cfield|].
    unfold Cnorm2, Csub, Cscale. simpl. ring.
  - intros self' Heq. unfold create_diffuser. rewrite Heq. reflexivity.
Qed.

Lemma diffuser_is_negated_reflection_witness :
  2 <= nqubits (__init__ 5 3) /\
  apply_instr (fun q => q) (create_diffuser (__init__ 5 3) (range 2)) ground 3%nat =
  Csub (ground 3%nat) (Cscale 2 (mean 2 ground)).
Proof.
  split; [simpl; lia|].
  apply (diffuser_is_negated_reflection (__init__ 5 3)); simpl; lia.
Defined.

(** ** Total probability *)

(** A sum over the indices below [2 ^ n] taken pair by pair, each index with a
    clear bit [q] together with its partner. *)
Lemma Rsum_pairs q n : (q < n)%nat -> forall F,
  Rsum F (2 ^ n) =
  Rsum (fun i => if Nat.testbit i q then 0%R else (F i + F (partner q i))%R) (2 ^ n).
Proof.
  induction n as [|m IH]; intros Hq F; [lia|].
  replace (2 ^ S m)%nat with (2 ^ m + 2 ^ m)%nat by (simpl; lia).
  rewrite !Rsum_split.
  destruct (Nat.eq_dec q m) as [->|Hne].
  - rewrite (Rsum_ext (fun i => if Nat.testbit i m then 0%R else (F i + F (partner m i))%R)
                      (fun i => (F i + F (2 ^ m + i)%nat)%R)).
    + rewrite (Rsum_ext (fun i => if Nat.testbit (2 ^ m + i) m then 0%R
                                  else (F (2 ^ m + i)%nat + F (partner m (2 ^ m + i)))%R)
                        (fun _ => 0%R)).
      * rewrite Rsum_plus, Rsum_const. lra.
      * intros i Hi. rewrite testbit_top by assumption. reflexivity.
    + intros i Hi. rewrite (testbit_above i m m Hi), partner_top by auto. reflexivity.
  - assert (Hqm : (q < m)%nat) by lia.
    rewrite (IH Hqm F), (IH Hqm (fun i => F (2 ^ m + i)%nat)).
    f_equal. apply Rsum_ext. intros i Hi.
    rewrite testbit_add_top, partner_add_top by assumption. reflexivity.
Qed.

Lemma hadamard_preserves q n f :
  (q < n)%nat -> total_probability n (hadamard q f) = total_probability n f.
Proof.
  intros Hq. unfold total_probability.
  rewrite (Rsum_pairs q n Hq (fun i => Cnorm2 (hadamard q f i))).
  rewrite (Rsum_pairs q n Hq (fun i => Cnorm2 (f i))).
  apply Rsum_ext. intros i _. unfold hadamard.
  rewrite testbit_partner_same, partner_involutive.
  destruct (Nat.testbit i q); [reflexivity|]. simpl negb. cbv iota.
  unfold Cnorm2, Cscale, Cadd, Csub. simpl.
  pose proof inv_sqrt2_double. nsatz.
Qed.

Lemma phase_flip_preserves n k f :
  total_probability n (applyDiagonalPhaseFlip k f) = total_probability n f.
Proof.
  unfold total_probability. apply Rsum_ext. intros i _.
  unfold applyDiagonalPhaseFlip. destruct (Nat.eqb i k); [|reflexivity].
  unfold Cnorm2, Copp. simpl. ring.
Qed.

Lemma total_probability_ext n f g :
  (forall i, (i < 2 ^ n)%nat -> f i = g i) -> total_probability n f = total_probability n g.
Proof.
  intros H. unfold total_probability. apply Rsum_ext.
  intros i Hi. rewrite (H i Hi). reflexivity.
Qed.

Lemma INR_pow2_pos n : (0 < INR (2 ^ n))%R.
Proof. rewrite pow_INR. apply pow_lt. simpl. lra. Qed.

Lemma reflection_preserves n f :
  total_probability n (fun i => Csub (f i) (Cscale 2 (mean n f))) = total_probability n f.
Proof.
  unfold total_probability, mean.
  pose proof (INR_pow2_pos n) as HN.
  remember (2 ^ n)%nat as N eqn:EN.
  remember (Rsum (fun i => fst (f i)) N) as sx eqn:Esx.
  remember (Rsum (fun i => snd (f i)) N) as sy eqn:Esy.
  remember (4 * (/ INR N * sx) * (/ INR N * sx) + 4 * (/ INR N * sy) * (/ INR N * sy))%R
    as c eqn:Ec.
  remember (-4 * (/ INR N * sx))%R as ca eqn:Eca.
  remember (-4 * (/ INR N * sy))%R as cb eqn:Ecb.
  rewrite (Rsum_ext _ (fun i => (Cnorm2 (f i) + (ca * fst (f i) + (cb * snd (f i) + c)))%R)).
  - rewrite (Rsum_plus (fun i => Cnorm2 (f i))).
    rewrite (Rsum_plus (fun i => (ca * fst (f i))%R)).
    rewrite (Rsum_plus (fun i => (cb * snd (f i))%R) (fun _ => c)).
    rewrite !Rsum_scale, Rsum_const, <- Esx, <- Esy.
    subst c ca cb. field. lra.
  - intros i _. unfold Cnorm2, Csub, Cscale. cbn [fst snd].
    rewrite fst_Csum, snd_Csum, <- Esx, <- Esy. subst c ca cb. ring.
Qed.

Lemma total_probability_ground n : total_probability n ground = 1%R.
Proof.
  unfold total_probability.
  rewrite (Rsum_ext _ (fun i => if Nat.eqb i O then 1%R else 0%R)).
  - apply (Rsum_single (fun _ => 1%R)).
    pose proof (Nat.pow_nonzero 2 n). lia.
  - intros i _. unfold ground. destruct (Nat.eqb i 0); unfold Cnorm2; simpl; lra.
Qed.

Lemma keeps_probability_hadamard n q : (q < n)%nat -> keeps_probability n (HGate q).
Proof. intros Hq f. simpl. apply hadamard_preserves. assumption. Qed.

Lemma keeps_probability_oracle self oracle :
  0 <= marked_index self < 2 ^ nqubits self ->
  create_comparison_oracle self = Ok oracle ->
  keeps_probability (Z.to_nat (nqubits self)) (oracle (range (nqubits self))).
Proof.
  intros Hm Ho f.
  rewrite (total_probability_ext _ _ (applyDiagonalPhaseFlip (Z.to_nat (marked_index self)) f)).
  - apply phase_flip_preserves.
  - intros i Hi. apply oracle_action; assumption.
Qed.

Lemma keeps_probability_diffuser self :
  2 <= nqubits self ->
  keeps_probability (Z.to_nat (nqubits self)) (create_diffuser self (range (nqubits self))).
Proof.
  intros Hn f.
  rewrite (total_probability_ext _ _
             (fun i => Csub (f i) (Cscale 2 (mean (Z.to_nat (nqubits self)) f)))).
  - apply reflection_preserves.
  - intros i Hi. apply diffuser_closed_form; assumption.
Qed.

Lemma keeps_probability_rounds n k oracle diffuser :
  keeps_probability n oracle -> keeps_probability n diffuser ->
  Forall (keeps_probability n) (rounds k oracle diffuser).
Proof.
  intros Ho Hd. unfold rounds.
  induction k as [|k IH]; simpl; [constructor|].
  constructor; [exact Ho|]. constructor; [exact Hd|exact IH].
Qed.

Lemma keeps_probability_algorithm self oracle clbits :
  2 <= nqubits self ->
  0 <= marked_index self < 2 ^ nqubits self ->
  create_comparison_oracle self = Ok oracle ->
  Forall (keeps_probability (Z.to_nat (nqubits self))) (algorithm self oracle clbits).
Proof.
  intros Hn Hm Ho. unfold algorithm. rewrite !Forall_app. repeat split.
  - unfold hadamard_layer, range. rewrite Forall_map, Forall_forall.
    intros q Hq. apply in_seq in Hq. apply keeps_probability_hadamard. lia.
  - apply keeps_probability_rounds;
      [apply keeps_probability_oracle|apply keeps_probability_diffuser]; assumption.
  - unfold measurement. constructor; [intros f; reflexivity|].
    rewrite Forall_map, Forall_forall. intros q _ f. reflexivity.
Qed.

Lemma evolve_keeps_probability n l :
  Forall (keeps_probability n) l ->
  forall f, total_probability n (evolve l f) = total_probability n f.
Proof.
  unfold evolve, run. induction l as [|g l IH]; intros Hall f; simpl; [reflexivity|].
  apply Forall_cons_iff in Hall. destruct Hall as [Hg Hl].
  rewrite (IH Hl). apply Hg.
Qed.

Lemma keeps_probability_hadamard_layer self :
  Forall (keeps_probability (Z.to_nat (nqubits self))) (hadamard_layer self).
Proof.
  unfold hadamard_layer, range. rewrite Forall_map, Forall_forall.
  intros q Hq. apply in_seq in Hq. apply keeps_probability_hadamard. lia.
Qed.

Lemma keeps_probability_measurement n n' clbits :
  Forall (keeps_probability n) (measurement n' clbits).
Proof.
  unfold measurement. constructor; [intros f; reflexivity|].
  rewrite Forall_map, Forall_forall. intros q _ f. reflexivity.
Qed.

(** C7: on a new instance of any width [n >= 2] and any marked index below
    [2 ^ n], the circuit of a run on a buildable register is the Hadamard
    layer, the rounds of oracle and diffuser, and the measurement; after
    every initial part of the circuit a call leaves, so after the Hadamard
    fan-out, after each oracle and after each diffuser, the squared
    magnitudes of the [2 ^ n] amplitudes sum to 1. *)
Theorem probability_one_after_every_transform
  (self : GroverComparator) (sampler_run : QuantumCircuit -> result quasi_dist) :
  2 <= nqubits self ->
  0 <= marked_index self < 2 ^ nqubits self ->
  data (qc self) = [] ->
  let n := Z.to_nat (nqubits self) in
  let circuit := data (qc (fst (check_larger_or_equal sampler_run self))) in
  (buildable (nqubits self) -> 0 <= nstates self < 2 ^ 64 ->
   exists oracle,
      create_comparison_oracle self = Ok oracle /\
      circuit =
        map HGate (range (nqubits self))
        ++ rounds (Z.to_nat (niterations_of (nstates self)))
                  (oracle (range (nqubits self)))
                  (create_diffuser self (range (nqubits self)))
        ++ measurement (num_qubits (qc self)) (num_clbits (qc self))) /\
  (forall done rest,
      circuit = done ++ rest -> total_probability n (evolve done ground) = 1%R) /\
  (forall i, (i < 2 ^ n)%nat ->
      evolve (map HGate (range (nqubits self))) ground i = RtoC (inv_sqrt2 ^ n)).
Proof.
  intros Hn Hm Hdata n circuit.
  split; [|split].
  - intros Hb HN.
    pose proof (oracle_of_marked_in_range self Hm Hb) as Ho.
    eexists. split; [exact Ho|].
    unfold circuit. rewrite (check_larger_or_equal_ok sampler_run self _ HN Ho).
    cbv zeta. unfold fst. simpl. rewrite Hdata. reflexivity.
  - intros done rest Hsplit.
    assert (Hall : Forall (keeps_probability n) circuit).
    { unfold circuit.
      destruct (check_circuit_cases sampler_run self)
        as [[Hc _]|[(oracle & Ho & Hc & _)|(_ & Hc & _)]];
        rewrite Hc, Hdata; cbn [app].
      - apply keeps_probability_hadamard_layer.
      - apply keeps_probability_algorithm; assumption.
      - rewrite Forall_app. split;
          [apply keeps_probability_hadamard_layer|apply keeps_probability_measurement]. }
    rewrite Hsplit, Forall_app in Hall. destruct Hall as [Hdone _].
    rewrite (evolve_keeps_probability n done Hdone). apply total_probability_ground.
  - intros i Hi. unfold evolve, range. rewrite run_hadamards, hadamard_all_ground.
    fold n. destruct (Nat.ltb_spec i (2 ^ n)); [reflexivity|lia].
Qed.

(* ================================================================= *)
(** * Further properties of the code *)

(** ** Oracle and diffuser as reflections *)

Lemma Copp_involutive x : Copp (Copp x) = x.
Proof. Cfield. Qed.

Lemma oracle_twice self oracle f i :
  0 <= marked_index self < 2 ^ nqubits self ->
  create_comparison_oracle self = Ok oracle ->
  (i < 2 ^ Z.to_nat (nqubits self))%nat ->
  apply_instr (fun q => q) (oracle (range (nqubits self)))
    (apply_instr (fun q => q) (oracle (range (nqubits self))) f) i = f i.
Proof.
  intros Hm Ho Hi.
  rewrite (oracle_action self oracle _ i Hm Ho Hi). unfold applyDiagonalPhaseFlip.
  rewrite (oracle_action self oracle f i Hm Ho Hi). unfold applyDiagonalPhaseFlip.
  destruct (Nat.eqb i (Z.to_nat (marked_index self))); [apply Copp_involutive|reflexivity].
Qed.

(** The oracle is its own inverse: it is built on every buildable register,
    and whenever it is built, applied twice it gives back every amplitude of
    the register. *)
Theorem oracle_is_involutive (self : GroverComparator) :
  0 <= marked_index self < 2 ^ nqubits self ->
  (buildable (nqubits self) -> exists oracle, create_comparison_oracle self = Ok oracle) /\
  forall oracle,
    create_comparison_oracle self = Ok oracle ->
    forall f i, (i < 2 ^ Z.to_nat (nqubits self))%nat ->
      apply_instr (fun q => q) (oracle (range (nqubits self)))
        (apply_instr (fun q => q) (oracle (range (nqubits self))) f) i = f i.
Proof.
  intros Hm. split.
  - intros Hb. eexists. apply (oracle_of_marked_in_range self Hm Hb).
  - intros oracle Ho f i Hi. apply (oracle_twice self _ f i Hm Ho Hi).
Qed.

Lemma mean_ext n f g :
  (forall i, (i < 2 ^ n)%nat -> f i = g i) -> mean n f = mean n g.
Proof. intros H. unfold mean. rewrite (Csum_ext f g) by assumption. reflexivity. Qed.

Lemma Csum_sub_const f c N :
  Csum (fun i => Csub (f i) c) N = Csub (Csum f N) (Cscale (INR N) c).
Proof.
  induction N as [|N IH].
  - simpl. Cfield.
  - rewrite S_INR. simpl Csum. rewrite IH. Cfield.
Qed.

Lemma mean_sub_const n f c :
  mean n (fun i => Csub (f i) c) = Csub (mean n f) c.
Proof.
  unfold mean. rewrite Csum_sub_const.
  pose proof (INR_pow2_pos n) as HN.
  apply C_eq; unfold Csub, Cscale; cbn [fst snd]; field; lra.
Qed.

Lemma Csum_const c N : Csum (fun _ => c) N = Cscale (INR N) c.
Proof.
  induction N as [|N IH].
  - simpl. Cfield.
  - rewrite S_INR. simpl Csum. rewrite IH. Cfield.
Qed.

Lemma mean_const n c : mean n (fun _ => c) = c.
Proof.
  unfold mean. rewrite Csum_const.
  pose proof (INR_pow2_pos n) as HN.
  apply C_eq; unfold Cscale; cbn [fst snd]; field; lra.
Qed.

Lemma diffuser_twice self f i :
  2 <= nqubits self ->
  (i < 2 ^ Z.to_nat (nqubits self))%nat ->
  apply_instr (fun q => q) (create_diffuser self (range (nqubits self)))
    (apply_instr (fun q => q) (create_diffuser self (range (nqubits self))) f) i = f i.
Proof.
  intros Hn Hi.
  rewrite (diffuser_closed_form self _ i Hn Hi).
  rewrite (mean_ext _ _ (fun j => Csub (f j) (Cscale 2 (mean (Z.to_nat (nqubits self)) f))))
    by (intros j Hj; apply diffuser_closed_form; assumption).
  rewrite mean_sub_const, (diffuser_closed_form self f i Hn Hi).
  Cfield.
Qed.

(** The diffuser is its own inverse on the register. *)
Theorem diffuser_is_involutive (self : GroverComparator) :
  2 <= nqubits self ->
  forall f i, (i < 2 ^ Z.to_nat (nqubits self))%nat ->
    apply_instr (fun q => q) (create_diffuser self (range (nqubits self)))
      (apply_instr (fun q => q) (create_diffuser self (range (nqubits self))) f) i = f i.
Proof. intros Hn f i Hi. apply diffuser_twice; assumption. Qed.

Lemma diffuser_is_involutive_witness :
  apply_instr (fun q => q) (create_diffuser (__init__ 7 2) (range 3))
    (apply_instr (fun q => q) (create_diffuser (__init__ 7 2) (range 3)) ground) 5%nat
  = ground 5%nat.
Proof.
  apply (diffuser_is_involutive (__init__ 7 2)); simpl; lia.
Defined.

(** The diffuser keeps every state whose amplitudes sum to zero and negates
    every state whose amplitudes are all equal: it reflects about the
    hyperplane orthogonal to the uniform superposition. *)
Theorem diffuser_fixes_zero_mean_negates_uniform (self : GroverComparator) :
  2 <= nqubits self ->
  let n := Z.to_nat (nqubits self) in
  let diffuser := apply_instr (fun q => q) (create_diffuser self (range (nqubits self))) in
  (forall f, Csum f (2 ^ n) = C0 ->
     forall i, (i < 2 ^ n)%nat -> diffuser f i = f i) /\
  (forall f c, (forall i, (i < 2 ^ n)%nat -> f i = c) ->
     forall i, (i < 2 ^ n)%nat -> diffuser f i = Copp c).
Proof.
  intros Hn n diffuser. split.
  - intros f Hsum i Hi. unfold diffuser.
    rewrite (diffuser_closed_form self f i Hn Hi). fold n.
    unfold mean. rewrite Hsum. Cfield.
  - intros f c Hc i Hi. unfold diffuser.
    rewrite (diffuser_closed_form self f i Hn Hi). fold n.
    rewrite (mean_ext n f (fun _ => c)) by assumption.
    rewrite mean_const, (Hc i Hi). Cfield.
Qed.

Lemma diffuser_fixes_zero_mean_negates_uniform_witness :
  (forall f c, (forall i, (i < 2 ^ 3)%nat -> f i = c) ->
     forall i, (i < 2 ^ 3)%nat ->
       apply_instr (fun q => q) (create_diffuser (__init__ 7 2) (range 3)) f i = Copp c)
  /\ 2 <= nqubits (__init__ 7 2).
Proof.
  split; [|simpl; lia].
  apply (diffuser_fixes_zero_mean_negates_uniform (__init__ 7 2)). simpl. lia.
Defined.

(** ** The state through the rounds *)

Lemma Rsum_two_valued m x y N :
  (m < N)%nat ->
  Rsum (fun i => if Nat.eqb i m then x else y) N = (x + (INR N - 1) * y)%R.
Proof.
  intros Hm.
  rewrite (Rsum_ext _ (fun i => ((if Nat.eqb i m then (x - y)%R else 0%R) + y)%R))
    by (intros i _; destruct (Nat.eqb i m); lra).
  rewrite Rsum_plus, (Rsum_single (fun _ => (x - y)%R) m N Hm), Rsum_const. lra.
Qed.

Lemma mean_two_valued n m ab f :
  (m < 2 ^ n)%nat ->
  (forall i, (i < 2 ^ n)%nat -> f i = two_valued m ab i) ->
  mean n f = RtoC ((fst ab + (INR (2 ^ n) - 1) * snd ab) / INR (2 ^ n)).
Proof.
  intros Hm Hf. rewrite (mean_ext n f (two_valued m ab) Hf).
  unfold mean. pose proof (INR_pow2_pos n) as HN.
  apply C_eq; unfold Cscale, RtoC; cbn [fst snd]; rewrite ?fst_Csum, ?snd_Csum.
  - rewrite (Rsum_ext _ (fun i => if Nat.eqb i m then fst ab else snd ab))
      by (intros i _; unfold two_valued; destruct (Nat.eqb i m); reflexivity).
    rewrite Rsum_two_valued by assumption. field. lra.
  - rewrite (Rsum_ext _ (fun _ => 0%R))
      by (intros i _; unfold two_valued; destruct (Nat.eqb i m); reflexivity).
    rewrite Rsum_const. ring.
Qed.

(** One round maps a two-valued state to a two-valued state. *)
Lemma round_two_valued self oracle ab f :
  2 <= nqubits self ->
  0 <= marked_index self < 2 ^ nqubits self ->
  create_comparison_oracle self = Ok oracle ->
  let n := Z.to_nat (nqubits self) in
  let m := Z.to_nat (marked_index self) in
  (forall i, (i < 2 ^ n)%nat -> f i = two_valued m ab i) ->
  forall i, (i < 2 ^ n)%nat ->
    apply_instr (fun q => q) (create_diffuser self (range (nqubits self)))
      (apply_instr (fun q => q) (oracle (range (nqubits self))) f) i
    = two_valued m (grover_step (INR (2 ^ n)) ab) i.
Proof.
  intros Hn Hm Ho n m Hf i Hi.
  assert (Hflip : forall j, (j < 2 ^ n)%nat ->
            apply_instr (fun q => q) (oracle (range (nqubits self))) f j
            = two_valued m (- fst ab, snd ab)%R j).
  { intros j Hj. rewrite (oracle_action self oracle f j Hm Ho Hj).
    unfold applyDiagonalPhaseFlip. fold m. rewrite (Hf j Hj). unfold two_valued.
    destruct (Nat.eqb j m); [Cfield|reflexivity]. }
  rewrite (diffuser_closed_form self _ i Hn Hi). fold n.
  rewrite (mean_two_valued n m _ _ (marked_below self Hm) Hflip), (Hflip i Hi).
  pose proof (INR_pow2_pos n) as HN.
  unfold two_valued, grover_step. cbn [fst snd].
  destruct (Nat.eqb i m); apply C_eq; unfold Csub, Cscale, RtoC; cbn [fst snd];
    try field; lra.
Qed.

Lemma rounds_snoc k oracle diffuser :
  rounds (S k) oracle diffuser = rounds k oracle diffuser ++ [oracle; diffuser].
Proof.
  unfold rounds.
  change (repeat [oracle; diffuser] (S k))
    with ([oracle; diffuser] :: repeat [oracle; diffuser] k).
  rewrite repeat_cons, concat_app. reflexivity.
Qed.

Lemma state_after_rounds self oracle k :
  2 <= nqubits self ->
  0 <= marked_index self < 2 ^ nqubits self ->
  create_comparison_oracle self = Ok oracle ->
  forall i, (i < 2 ^ Z.to_nat (nqubits self))%nat ->
    evolve (hadamard_layer self
            ++ rounds k (oracle (range (nqubits self)))
                        (create_diffuser self (range (nqubits self)))) ground i
    = two_valued (Z.to_nat (marked_index self))
                 (grover_amplitudes (Z.to_nat (nqubits self)) k) i.
Proof.
  intros Hn Hm Ho. induction k as [|k IH]; intros i Hi.
  - unfold rounds. simpl concat. rewrite app_nil_r.
    unfold evolve, hadamard_layer, range.
    rewrite run_hadamards, hadamard_all_ground.
    destruct (Nat.ltb_spec i (2 ^ Z.to_nat (nqubits self))); [|lia].
    unfold two_valued. simpl. destruct (Nat.eqb i _); reflexivity.
  - rewrite rounds_snoc, app_assoc. unfold evolve. rewrite run_app.
    unfold run at 1. cbn [fold_left].
    apply (round_two_valued self oracle _ _ Hn Hm Ho IH i Hi).
Qed.

(** After the Hadamard layer and any number of rounds the state has one
    amplitude at the marked index and one common amplitude at all the other
    indices, both real and given by the recurrence [grover_step] from
    [1 / sqrt N]; this for the oracle the method returns, which it does on
    every buildable register. *)
Theorem state_is_two_valued_after_rounds (self : GroverComparator) :
  2 <= nqubits self ->
  0 <= marked_index self < 2 ^ nqubits self ->
  (buildable (nqubits self) -> exists oracle, create_comparison_oracle self = Ok oracle) /\
  forall oracle,
    create_comparison_oracle self = Ok oracle ->
    forall k i, (i < 2 ^ Z.to_nat (nqubits self))%nat ->
      evolve (map HGate (range (nqubits self))
              ++ rounds k (oracle (range (nqubits self)))
                          (create_diffuser self (range (nqubits self)))) ground i
      = if Nat.eqb i (Z.to_nat (marked_index self))
        then RtoC (fst (grover_amplitudes (Z.to_nat (nqubits self)) k))
        else RtoC (snd (grover_amplitudes (Z.to_nat (nqubits self)) k)).
Proof.
  intros Hn Hm. split.
  - intros Hb. eexists. apply (oracle_of_marked_in_range self Hm Hb).
  - intros oracle Ho k i Hi. apply (state_after_rounds self _ k Hn Hm Ho i Hi).
Qed.

Lemma INR_pow2_ge_4 n : (2 <= n)%nat -> (4 <= INR (2 ^ n))%R.
Proof.
  intros Hn. replace 4%R with (INR 4) by (simpl; lra). apply le_INR.
  change 4%nat with (2 ^ 2)%nat. apply Nat.pow_le_mono_r; lia.
Qed.

Lemma first_round_amplitudes n :
  let N := INR (2 ^ n) in
  ((fst (grover_amplitudes n 1) * fst (grover_amplitudes n 1) = (3 - 4 / N) * (3 - 4 / N) / N)
   /\ (snd (grover_amplitudes n 1) * snd (grover_amplitudes n 1)
       = (1 - 4 / N) * (1 - 4 / N) / N))%R.
Proof.
  intros N. pose proof (INR_pow2_pos n) as HN. fold N in HN.
  pose proof (inv_sqrt2_pow n) as Ht. fold N in Ht.
  simpl grover_amplitudes. unfold grover_step. cbn [fst snd]. fold N.
  set (t := (inv_sqrt2 ^ n)%R) in *.
  split.
  - replace ((- t - 2 * (((N - 1) * t - t) / N)) * (- t - 2 * (((N - 1) * t - t) / N)))%R
      with ((t * t) * ((3 - 4 / N) * (3 - 4 / N)))%R by (field; lra).
    rewrite Ht. field. lra.
  - replace ((t - 2 * (((N - 1) * t - t) / N)) * (t - 2 * (((N - 1) * t - t) / N)))%R
      with ((t * t) * ((1 - 4 / N) * (1 - 4 / N)))%R by (field; lra).
    rewrite Ht. field. lra.
Qed.

(** The first round amplifies: after the Hadamard layer, one oracle and one
    diffuser, the marked index has probability [(3 - 4/N)^2 / N], every other
    index [(1 - 4/N)^2 / N], which is strictly less, for every width; this
    for the oracle the method returns, which it does on every buildable
    register. *)
Theorem first_round_amplifies (self : GroverComparator) :
  2 <= nqubits self ->
  0 <= marked_index self < 2 ^ nqubits self ->
  let n := Z.to_nat (nqubits self) in
  let N := INR (2 ^ n) in
  (buildable (nqubits self) -> exists oracle, create_comparison_oracle self = Ok oracle) /\
  forall oracle,
    create_comparison_oracle self = Ok oracle ->
    let after := evolve (map HGate (range (nqubits self))
                         ++ [oracle (range (nqubits self));
                             create_diffuser self (range (nqubits self))]) ground in
    Cnorm2 (after (Z.to_nat (marked_index self))) = ((3 - 4 / N) * (3 - 4 / N) / N)%R /\
    forall i, (i < 2 ^ n)%nat -> i <> Z.to_nat (marked_index self) ->
      Cnorm2 (after i) = ((1 - 4 / N) * (1 - 4 / N) / N)%R /\
      (Cnorm2 (after i) < Cnorm2 (after (Z.to_nat (marked_index self))))%R.
Proof.
  intros Hn Hm n N.
  split; [intros Hb; eexists; apply (oracle_of_marked_in_range self Hm Hb)|].
  intros oracle Ho. cbv zeta.
  pose proof (state_after_rounds self oracle 1 Hn Hm Ho) as Hst.
  change (rounds 1 ?o ?d) with [o; d] in Hst. unfold hadamard_layer in Hst.
  pose proof (first_round_amplitudes n) as [Ha Hb]. fold N in Ha, Hb.
  assert (HN : (4 <= N)%R) by (apply INR_pow2_ge_4; unfold n; lia).
  set (after := evolve (map HGate (range (nqubits self))
                        ++ [oracle (range (nqubits self));
                            create_diffuser self (range (nqubits self))]) ground) in *.
  assert (Hmarked : Cnorm2 (after (Z.to_nat (marked_index self)))
                    = ((3 - 4 / N) * (3 - 4 / N) / N)%R).
  { rewrite (Hst _ (marked_below self Hm)). unfold two_valued.
    rewrite Nat.eqb_refl. unfold Cnorm2, RtoC. cbn [fst snd]. fold n.
    rewrite Ha. ring. }
  split; [exact Hmarked|].
  intros i Hi Hne.
  assert (Hother : Cnorm2 (after i) = ((1 - 4 / N) * (1 - 4 / N) / N)%R).
  { rewrite (Hst _ Hi). unfold two_valued.
    destruct (Nat.eqb_spec i (Z.to_nat (marked_index self))); [contradiction|].
    unfold Cnorm2, RtoC. cbn [fst snd]. fold n. rewrite Hb. ring. }
  split; [exact Hother|]. rewrite Hother, Hmarked.
  assert (Hu : (0 < 4 / N <= 1)%R).
  { split; [apply Rdiv_lt_0_compat; lra|].
    apply (Rmult_le_reg_r N); [lra|]. unfold Rdiv. rewrite Rmult_assoc, Rinv_l by lra. lra. }
  assert (HiN : (0 < / N)%R) by (apply Rinv_0_lt_compat; lra).
  unfold Rdiv at 1 3. apply Rmult_lt_compat_r; [exact HiN|]. nra.
Qed.

(** ** The circuit of a call on a new instance *)

Lemma init_call sampler_run a b :
  buildable (nqubits (__init__ a b)) ->
  let self := __init__ a b in
  let oracle := fun qs =>
    Composite "Oracle(>=)"
      [UnitaryGate (marked_eye (2 ^ nqubits self) (Z.to_nat (marked_index self)))
                   (range (nqubits self))] qs in
  let circuit := mkQC None (Z.to_nat (nqubits self)) (Z.to_nat (nqubits self))
                      (algorithm self oracle 0) in
  create_comparison_oracle self = Ok oracle /\
  check_larger_or_equal sampler_run self =
  (with_qc self circuit,
   match sampler_run circuit with
   | Ok _ => Ok (a - b >=? 0)
   | Raise e => Raise e
   end).
Proof.
  intros Hb self oracle circuit.
  pose proof (oracle_of_marked_in_range self (init_marked_lt_nstates a b) Hb) as Ho.
  split; [exact Ho|].
  rewrite (check_larger_or_equal_ok sampler_run self oracle
             (init_buildable_nstates a b Hb) Ho).
  reflexivity.
Qed.

Lemma run_measurement place n clbits f : run place (measurement n clbits) f = f.
Proof.
  unfold measurement, run. cbn [fold_left apply_instr].
  induction (seq 0 n) as [|q l IH]; [reflexivity|exact IH].
Qed.

Lemma width_two a b : Z.abs (a - b) <= 3 -> nqubits (__init__ a b) = 2.
Proof.
  intros Hd. simpl.
  pose proof (bit_length_least (Z.abs (a - b)) 2 ltac:(lia)) as Hb.
  rewrite Z.abs_idemp in Hb. specialize (Hb ltac:(simpl; lia)). lia.
Qed.

(** The amplitudes the circuit of a call leaves when [|a - b| <= 3]. *)
Lemma final_state_width_two sampler_run a b i :
  buildable (nqubits (__init__ a b)) ->
  Z.abs (a - b) <= 3 -> (i < 4)%nat ->
  evolve (data (qc (fst (check_larger_or_equal sampler_run (__init__ a b))))) ground i
  = if Nat.eqb i (Z.to_nat (Z.abs (a - b))) then RtoC (-1) else C0.
Proof.
  intros Hb Hd Hi.
  destruct (init_call sampler_run a b Hb) as [Ho Hc]. rewrite Hc. cbn [fst qc with_qc data].
  pose proof (width_two a b Hd) as Hw.
  remember (__init__ a b) as self eqn:Eself.
  assert (Hns : nstates self = 4) by (subst self; simpl nstates; simpl in Hw; rewrite Hw; reflexivity).
  assert (Hmk : marked_index self = Z.abs (a - b)) by (subst self; reflexivity).
  assert (Hm : 0 <= marked_index self < 2 ^ nqubits self)
    by (subst self; apply init_marked_lt_nstates).
  unfold algorithm. rewrite Hns, (floor_certificate_sound 4 1) by reflexivity.
  rewrite app_assoc. unfold evolve. rewrite run_app, run_measurement.
  change (Z.to_nat 1) with 1%nat.
  pose proof (state_after_rounds self _ 1 ltac:(lia) Hm Ho i) as Hst.
  unfold evolve in Hst. rewrite Hst by (rewrite Hw; simpl; lia).
  rewrite Hw, Hmk. unfold two_valued. simpl grover_amplitudes. unfold grover_step.
  cbn [fst snd]. pose proof inv_sqrt2_double as Hs.
  destruct (Nat.eqb i (Z.to_nat (Z.abs (a - b))));
    apply C_eq; unfold RtoC, C0; cbn [fst snd]; simpl; try lra; nra.
Qed.

Lemma buildable_width_two a b :
  Z.abs (a - b) <= 3 -> 256 <= memory_bytes -> buildable (nqubits (__init__ a b)).
Proof.
  intros Hd Hmem. rewrite (width_two a b Hd). split; simpl; lia.
Qed.

(** When [|a - b| <= 3] the single round is exact: the circuit a call builds,
    on a platform that grants the 256 bytes of the 4 by 4 oracle matrix,
    leaves probability 1 at index [|a - b|] and 0 at the three other indices. *)
Theorem small_difference_found_with_certainty
  (a b : Z) (sampler_run : QuantumCircuit -> result quasi_dist) :
  256 <= memory_bytes ->
  Z.abs (a - b) <= 3 ->
  let final := evolve (data (qc (fst (check_larger_or_equal sampler_run (__init__ a b)))))
                      ground in
  nqubits (__init__ a b) = 2 /\
  forall i, (i < 4)%nat ->
    Cnorm2 (final i) = if Nat.eqb i (Z.to_nat (Z.abs (a - b))) then 1%R else 0%R.
Proof.
  intros Hmem Hd final. split; [apply width_two; assumption|].
  intros i Hi. unfold final.
  rewrite final_state_width_two by (try assumption; apply buildable_width_two; assumption).
  destruct (Nat.eqb i _); unfold Cnorm2, RtoC, C0; simpl; ring.
Qed.

(** ** More on the scan for the most likely key *)

Lemma most_likely_selects_strict_max (counts : quasi_dist) key value :
  In (key, value) counts ->
  (forall k v, In (k, v) counts -> (k, v) <> (key, value) -> (v < value)%R) ->
  most_likely counts = (Some key, Fin value).
Proof.
  intros Hin Hmax.
  assert (Hne : counts <> []) by (intros ->; contradiction).
  destruct (most_likely_first_seen counts Hne) as (pre & k0 & v0 & post & E & F & P1 & P2).
  rewrite F.
  assert (Hin0 : In (k0, v0) counts) by (rewrite E; apply in_or_app; right; left; reflexivity).
  assert (Hle : (value <= v0)%R).
  { rewrite E in Hin. apply in_app_or in Hin. destruct Hin as [Hin|[Heq|Hin]].
    - specialize (P1 _ Hin). simpl in P1. lra.
    - injection Heq as _ <-. lra.
    - apply (P2 _ Hin). }
  destruct (Z.eq_dec k0 key) as [->|Hk].
  - destruct (Req_dec v0 value) as [->|Hv]; [reflexivity|].
    assert (v0 < value)%R by (apply (Hmax key v0 Hin0); congruence). lra.
  - assert (v0 < value)%R by (apply (Hmax k0 v0 Hin0); congruence). lra.
Qed.

(** A key whose value is strictly above every other item's is the one the
    scan selects, wherever it stands in the iteration order. *)
Theorem strict_maximum_is_selected (counts : quasi_dist) (key : Z) (value : R) :
  In (key, value) counts ->
  (forall k v, In (k, v) counts -> (k, v) <> (key, value) -> (v < value)%R) ->
  most_likely counts = (Some key, Fin value).
Proof. apply most_likely_selects_strict_max. Qed.

Lemma strict_maximum_is_selected_witness :
  most_likely [(3, (1 / 8)%R); (1, (3 / 4)%R); (0, (1 / 8)%R)] = (Some 1, Fin (3 / 4)%R).
Proof.
  apply (strict_maximum_is_selected [(3, (1 / 8)%R); (1, (3 / 4)%R); (0, (1 / 8)%R)]).
  - simpl. right. left. reflexivity.
  - intros k v [H|[H|[H|[]]]] Hne; injection H as <- <-;
      [lra|exfalso; apply Hne; reflexivity|lra].
Defined.

Lemma in_born n f k v :
  In (k, v) (born n f) <-> exists i, (i < 2 ^ n)%nat /\ k = Z.of_nat i /\ v = Cnorm2 (f i).
Proof.
  unfold born. rewrite in_map_iff. split.
  - intros (i & Heq & Hi). apply in_seq in Hi. injection Heq as <- <-.
    exists i. repeat split. lia.
  - intros (i & Hi & -> & ->). exists i. split; [reflexivity|]. apply in_seq. lia.
Qed.

(** When [|a - b| <= 3], scanning the exact distribution of the circuit a
    call builds, on a platform that grants the 256 bytes of the 4 by 4 oracle
    matrix, gives [max_key = |a - b|] with [max_value = 1]. *)
Theorem small_difference_is_most_likely
  (a b : Z) (sampler_run : QuantumCircuit -> result quasi_dist) :
  256 <= memory_bytes ->
  Z.abs (a - b) <= 3 ->
  most_likely
    (born 2 (evolve (data (qc (fst (check_larger_or_equal sampler_run (__init__ a b)))))
                    ground))
  = (Some (Z.abs (a - b)), Fin 1%R).
Proof.
  intros Hmem Hd. pose proof (buildable_width_two a b Hd Hmem) as Hb.
  apply most_likely_selects_strict_max.
  - apply in_born. exists (Z.to_nat (Z.abs (a - b))).
    split; [simpl; lia|]. split; [lia|].
    rewrite final_state_width_two by (try assumption; simpl; lia).
    rewrite Nat.eqb_refl. unfold Cnorm2, RtoC. simpl. ring.
  - intros k v Hin Hne. apply in_born in Hin. destruct Hin as (i & Hi & -> & ->).
    rewrite final_state_width_two by (try assumption; simpl in Hi; lia).
    destruct (Nat.eqb_spec i (Z.to_nat (Z.abs (a - b)))) as [->|Hi'].
    + exfalso. apply Hne. f_equal; [lia|].
      rewrite final_state_width_two by (try assumption; simpl; lia).
      rewrite Nat.eqb_refl. unfold Cnorm2, RtoC. simpl. ring.
    + unfold Cnorm2, C0. simpl. lra.
Qed.

(** ** What the circuit knows about the inputs *)

(** The circuit a call leaves, whatever the instance and the sampler. *)
Lemma check_circuit sampler_run self :
  qc (fst (check_larger_or_equal sampler_run self)) =
  let n := nqubits self in
  let c1 := qc_h (range n) (qc self) in
  match niterations_checked (nstates self) with
  | Raise _ => c1
  | Ok k =>
      match Z.to_nat k with
      | O => qc_measure_all c1
      | S _ =>
          match create_comparison_oracle self with
          | Raise _ => c1
          | Ok oracle =>
              qc_measure_all
                (qc_add c1 (rounds (Z.to_nat k) (oracle (range n))
                                   (create_diffuser self (range n))))
          end
      end
  end.
Proof.
  cbv zeta. unfold check_larger_or_equal, bind, get_self, update_qc, lift, ret.
  cbn [nstates with_qc].
  destruct (niterations_checked (nstates self)) as [k|e]; [|reflexivity].
  destruct (Z.to_nat k) as [|k'] eqn:Ek.
  - cbn [for_range]. unfold ret. cbn [qc with_qc].
    match goal with |- context [sampler_run ?c] => destruct (sampler_run c) as [counts|e] end;
      [|reflexivity].
    destruct (most_likely counts) as [max_key max_value]. reflexivity.
  - destruct (create_comparison_oracle self) as [oracle|e] eqn:Ho.
    + rewrite (for_range_grover_ok (S k') _ oracle) by (rewrite oracle_with_qc; exact Ho).
      cbn [qc with_qc nqubits].
      match goal with |- context [sampler_run ?c] => destruct (sampler_run c) as [counts|e] end;
        [|reflexivity].
      destruct (most_likely counts) as [max_key max_value]. reflexivity.
    + rewrite (for_range_grover_raise k' _ e) by (rewrite oracle_with_qc; exact Ho).
      reflexivity.
Qed.

Lemma circuit_of_magnitude a b a' b' s s' :
  Z.abs (a - b) = Z.abs (a' - b') ->
  qc (fst (check_larger_or_equal s (__init__ a b))) =
  qc (fst (check_larger_or_equal s' (__init__ a' b'))).
Proof.
  intros H. rewrite !check_circuit. cbv zeta.
  unfold create_comparison_oracle, create_diffuser, marked_index, __init__.
  cbn [nqubits nstates diff qc]. rewrite H. reflexivity.
Qed.

Lemma width_of_swapped a b : nqubits (__init__ b a) = nqubits (__init__ a b).
Proof.
  cbn [__init__ nqubits]. replace (b - a) with (- (a - b)) by lia.
  rewrite Z.abs_opp. reflexivity.
Qed.

(** The circuit a call leaves on a new instance depends on the inputs
    through [|a - b|] only: two pairs with the same magnitude of difference
    give the same qubits, the same classical bits and the same instructions,
    one for one, whatever the samplers do and whether the call returns or
    raises. *)
Theorem circuit_depends_on_magnitude_only
  (a b a' b' : Z) (s s' : QuantumCircuit -> result quasi_dist) :
  Z.abs (a - b) = Z.abs (a' - b') ->
  let c := qc (fst (check_larger_or_equal s (__init__ a b))) in
  let c' := qc (fst (check_larger_or_equal s' (__init__ a' b'))) in
  num_qubits c = num_qubits c' /\ num_clbits c = num_clbits c' /\ data c = data c'.
Proof.
  intros H c c'. unfold c, c'.
  rewrite (circuit_of_magnitude a b a' b' s s' H). repeat split.
Qed.

(** Swapping two different inputs on a buildable register leaves the
    qubits, classical bits and instructions of the circuit unchanged, and yet,
    whenever the sampler returns on both circuits, turns the answer into its
    opposite: the answer is no function of the measured distribution. *)
Theorem swapped_inputs_same_circuit_opposite_answer
  (a b : Z) (sampler_run : QuantumCircuit -> result quasi_dist)
  (counts counts' : quasi_dist) :
  a <> b ->
  buildable (nqubits (__init__ a b)) ->
  sampler_run (qc (fst (check_larger_or_equal sampler_run (__init__ a b)))) = Ok counts ->
  sampler_run (qc (fst (check_larger_or_equal sampler_run (__init__ b a)))) = Ok counts' ->
  let c := qc (fst (check_larger_or_equal sampler_run (__init__ a b))) in
  let c' := qc (fst (check_larger_or_equal sampler_run (__init__ b a))) in
  (num_qubits c = num_qubits c' /\ num_clbits c = num_clbits c' /\ data c = data c') /\
  exists answer,
    snd (check_larger_or_equal sampler_run (__init__ a b)) = Ok answer /\
    snd (check_larger_or_equal sampler_run (__init__ b a)) = Ok (negb answer).
Proof.
  intros Hne Hb Hs Hs' c c'.
  split.
  { unfold c, c'.
    rewrite (circuit_of_magnitude a b b a sampler_run sampler_run) by lia.
    repeat split. }
  assert (Hb' : buildable (nqubits (__init__ b a))) by (rewrite width_of_swapped; exact Hb).
  destruct (init_call sampler_run a b Hb) as [_ Hc].
  destruct (init_call sampler_run b a Hb') as [_ Hc'].
  rewrite Hc in Hs |- *. rewrite Hc' in Hs' |- *. cbn [fst snd qc with_qc] in *.
  rewrite Hs, Hs'. exists (a - b >=? 0). split; [reflexivity|]. f_equal.
  destruct (Z.geb_spec (a - b) 0), (Z.geb_spec (b - a) 0); try reflexivity; lia.
Qed.

(** ** Width and number of rounds *)

Lemma bit_length_abs x : bit_length (Z.abs x) = bit_length x.
Proof. destruct x; reflexivity. Qed.

(** The width is 2 exactly for differences of magnitude at most 3, and a
    width [k >= 3] exactly for magnitudes from [2 ^ (k - 1)] to [2 ^ k - 1];
    from width 3 on, the marked index lies in the upper half of the indices. *)
Theorem width_by_magnitude (a b : Z) :
  let self := __init__ a b in
  (nqubits self = 2 <-> Z.abs (a - b) <= 3) /\
  (forall k, 3 <= k ->
     (nqubits self = k <-> 2 ^ (k - 1) <= Z.abs (a - b) < 2 ^ k)) /\
  (3 <= nqubits self -> nstates self <= 2 * marked_index self).
Proof.
  cbv zeta. unfold marked_index. cbn [nqubits nstates diff __init__].
  rewrite bit_length_abs.
  pose proof (bit_length_upper (a - b)) as Hup.
  pose proof (bit_length_nonneg (a - b)) as Hnn.
  assert (Hlow : 1 <= bit_length (a - b) -> 2 ^ (bit_length (a - b) - 1) <= Z.abs (a - b)).
  { intros H1. apply bit_length_lower. intros H0. rewrite H0 in H1. simpl in H1. lia. }
  assert (Hexact : forall k, 1 <= k -> 2 ^ (k - 1) <= Z.abs (a - b) < 2 ^ k ->
                             bit_length (a - b) = k).
  { intros k Hk [Hlo Hhi].
    pose proof (bit_length_least (a - b) k ltac:(lia) Hhi) as Hle.
    destruct (Z_lt_le_dec (bit_length (a - b)) k) as [Hlt|]; [exfalso|lia].
    assert (2 ^ bit_length (a - b) <= 2 ^ (k - 1)) by (apply Z.pow_le_mono_r; lia).
    lia. }
  split; [|split].
  - split.
    + intros Hw. assert (Hb : bit_length (a - b) <= 2) by lia.
      assert (2 ^ bit_length (a - b) <= 2 ^ 2) by (apply Z.pow_le_mono_r; lia).
      change (2 ^ 2) with 4 in *. lia.
    + intros Hd. pose proof (bit_length_least (a - b) 2 ltac:(lia) ltac:(simpl; lia)). lia.
  - intros k Hk. split.
    + intros Hw. assert (Hb : bit_length (a - b) = k) by lia.
      rewrite <- Hb. split; [apply Hlow; lia|exact Hup].
    + intros Hr. rewrite (Hexact k ltac:(lia) Hr). lia.
  - intros Hw. assert (Hb : Z.max (bit_length (a - b)) 2 = bit_length (a - b)) by lia.
    rewrite Hb in *. specialize (Hlow ltac:(lia)).
    replace (bit_length (a - b)) with (Z.succ (bit_length (a - b) - 1)) at 1 by lia.
    rewrite Z.pow_succ_r by lia. lia.
Qed.

Lemma niterations_bounds N :
  2 <= N ->
  1 <= niterations_of N /\
  niterations_of N * niterations_of N <= N /\
  N < 2 * (niterations_of N + 1) * (niterations_of N + 1).
Proof.
  intros HN.
  pose proof PI_digits as [Hp1 Hp2].
  assert (HNr : (2 <= IZR N)%R) by (apply IZR_le; assumption).
  pose proof (sqrt_pos (IZR N)) as Hs0.
  pose proof (sqrt_sqrt (IZR N) ltac:(lra)) as Hss.
  pose proof (Zfloor_bound (PI / 4 * sqrt (IZR N))) as [Hlo Hhi].
  pose proof (niterations_nonneg N) as Hk0. apply IZR_le in Hk0.
  unfold niterations_of in *.
  set (s := sqrt (IZR N)) in *. set (k := Zfloor (PI / 4 * s)) in *.
  assert (Hs14 : (1.4 <= s)%R) by nra.
  assert (Hq1 : (0.78 * s <= PI / 4 * s)%R) by (apply Rmult_le_compat_r; lra).
  assert (Hq2 : (PI / 4 * s <= 1 * s)%R) by (apply Rmult_le_compat_r; lra).
  assert (Hks : (IZR k <= s)%R) by lra.
  assert (Hsk : (0.78 * s < IZR k + 1)%R) by lra.
  split; [|split].
  - apply Zfloor_lub. lra.
  - apply le_IZR. rewrite mult_IZR. nra.
  - apply lt_IZR. rewrite !mult_IZR, plus_IZR. nra.
Qed.

(** The count of rounds [k] of a new instance is at least 1 and of the order
    of the square root of the number of states:
    [k * k <= N < 2 * (k + 1) * (k + 1)]. *)
Theorem rounds_between_one_and_sqrt (a b : Z) :
  let N := nstates (__init__ a b) in
  let k := niterations_of N in
  4 <= N /\ 1 <= k /\ k * k <= N /\ N < 2 * (k + 1) * (k + 1).
Proof.
  cbv zeta.
  assert (HN : 4 <= nstates (__init__ a b)).
  { cbn [nstates __init__]. change 4 with (2 ^ 2). apply Z.pow_le_mono_r; lia. }
  split; [exact HN|]. apply niterations_bounds. lia.
Qed.

(** ** The failure path *)

Lemma np_setitem2_eye_out_of_range N i v :
  0 <= N <= i -> np_setitem2 (eye N) i i v = Raise "IndexError".
Proof.
  intros Hi. unfold np_setitem2, np_index. rewrite length_eye.
  assert (H1 : (i <? Z.of_nat (Z.to_nat N)) = false) by (apply Z.ltb_ge; lia).
  assert (H2 : (i <? 0) = false) by (apply Z.ltb_ge; lia).
  rewrite H1, H2, !andb_false_r. reflexivity.
Qed.

Lemma oracle_out_of_range self :
  0 <= nqubits self ->
  buildable (nqubits self) ->
  2 ^ nqubits self <= marked_index self ->
  create_comparison_oracle self = Raise "IndexError".
Proof.
  intros Hn Hb H. unfold create_comparison_oracle.
  rewrite np_eye_buildable by assumption. simpl rbind.
  rewrite np_setitem2_eye_out_of_range; [reflexivity|].
  split; [apply Z.pow_nonneg; lia|assumption].
Qed.

(** On an instance whose attributes make [|diff|] reach [2 ^ nqubits] (the
    constructor never builds one), with a circuit of [nqubits >= 1] qubits, a
    buildable register and a size [nstates] from 2 that [np.sqrt] takes, the
    call raises [IndexError] in the first round: the Hadamard layer stays
    appended to [self.qc], nothing else is, and the sampler is not run. *)
Theorem call_fails_when_marked_index_out_of_range
  (self : GroverComparator) (sampler_run : QuantumCircuit -> result quasi_dist) :
  1 <= nqubits self ->
  num_qubits (qc self) = Z.to_nat (nqubits self) ->
  buildable (nqubits self) ->
  2 ^ nqubits self <= marked_index self ->
  2 <= nstates self < 2 ^ 64 ->
  check_larger_or_equal sampler_run self =
  (with_qc self (qc_add (qc self) (map HGate (range (nqubits self)))), Raise "IndexError").
Proof.
  intros Hn Hq Hb Hm HN.
  pose proof (niterations_bounds (nstates self) ltac:(lia)) as [Hk _].
  apply check_raises_in_oracle; [lia|exact Hk|].
  apply oracle_out_of_range; [lia|assumption|assumption].
Qed.

(** ** Calls in a row *)




(** ** Every instruction fits the register *)

Lemma in_list_set {A} (l : list A) k v x : In x (list_set l k v) -> x = v \/ In x l.
Proof.
  revert k; induction l as [|h t IH]; intros [|k] Hin; simpl in *; auto.
  - destruct Hin as [<-|Hin]; auto.
  - destruct Hin as [<-|Hin]; auto. destruct (IH k Hin); auto.
Qed.

Lemma eye_row_length N row : In row (eye N) -> length row = Z.to_nat N.
Proof.
  unfold eye. rewrite in_map_iff. intros (r & <- & _).
  rewrite length_map, length_seq. reflexivity.
Qed.

Lemma marked_eye_square N k :
  (k < Z.to_nat N)%nat ->
  length (marked_eye N k) = Z.to_nat N /\
  forall row, In row (marked_eye N k) -> length row = Z.to_nat N.
Proof.
  intros Hk. unfold marked_eye. split.
  - rewrite length_list_set. apply length_eye.
  - intros row Hin. apply in_list_set in Hin. destruct Hin as [->|Hin].
    + rewrite length_list_set. apply eye_row_length.
      apply nth_In. rewrite length_eye. assumption.
    + apply eye_row_length. assumption.
Qed.

Lemma all_below_seq n : forallb (fun q => Nat.ltb q n) (seq 0 n) = true.
Proof.
  apply forallb_forall. intros q Hq. apply in_seq in Hq. apply Nat.ltb_lt. lia.
Qed.

Lemma all_below_seq_le m n : (m <= n)%nat -> forallb (fun q => Nat.ltb q n) (seq 0 m) = true.
Proof.
  intros Hmn. apply forallb_forall. intros q Hq. apply in_seq in Hq. apply Nat.ltb_lt. lia.
Qed.

Lemma fits_map (mk : nat -> Instruction) n clbits (l : list nat) :
  (forall q, In q l -> fits n clbits (mk q) = true) ->
  forallb (fits n clbits) (map mk l) = true.
Proof.
  intros H. apply forallb_forall. intros g Hg. apply in_map_iff in Hg.
  destruct Hg as (q & <- & Hq). apply H. assumption.
Qed.

Lemma fits_hadamards n clbits : forallb (fits n clbits) (map HGate (seq 0 n)) = true.
Proof.
  apply fits_map. intros q Hq. apply in_seq in Hq. apply Nat.ltb_lt. lia.
Qed.

Lemma fits_xs n clbits : forallb (fits n clbits) (map XGate (seq 0 n)) = true.
Proof.
  apply fits_map. intros q Hq. apply in_seq in Hq. apply Nat.ltb_lt. lia.
Qed.

Lemma fits_oracle self oracle clbits :
  0 <= marked_index self < 2 ^ nqubits self ->
  create_comparison_oracle self = Ok oracle ->
  fits (Z.to_nat (nqubits self)) clbits (oracle (range (nqubits self))) = true.
Proof.
  intros Hm Ho. rewrite (oracle_ok_form self oracle Hm Ho).
  pose proof (nqubits_nonneg_of_marked self Hm) as Hn.
  pose proof (marked_below self Hm) as Hk.
  rewrite <- to_nat_pow2 in Hk by assumption.
  destruct (marked_eye_square (2 ^ nqubits self) _ Hk) as [Hlen Hrows].
  rewrite to_nat_pow2 in Hlen, Hrows by assumption.
  unfold range. cbn [fits forallb]. rewrite length_seq, !all_below_seq, Hlen, Nat.eqb_refl.
  rewrite andb_true_r. cbn [andb].
  apply forallb_forall. intros row Hrow. rewrite (Hrows row Hrow). apply Nat.eqb_refl.
Qed.

Lemma fits_diffuser self clbits :
  2 <= nqubits self ->
  fits (Z.to_nat (nqubits self)) clbits (create_diffuser self (range (nqubits self))) = true.
Proof.
  intros Hn. rewrite create_diffuser_body. unfold range.
  remember (Z.to_nat (nqubits self)) as n eqn:En.
  assert (Hlast : Z.to_nat (nqubits self - 1) = Nat.pred n) by lia.
  rewrite Hlast. cbn [fits]. rewrite length_seq, all_below_seq. cbn [andb].
  rewrite !forallb_app, fits_hadamards, fits_xs. cbn [forallb fits andb].
  rewrite all_below_seq, (all_below_seq_le (Nat.pred n) n) by lia.
  rewrite length_seq.
  assert (Hlt : Nat.ltb (Nat.pred n) n = true) by (apply Nat.ltb_lt; lia).
  assert (Hge : Nat.leb 1 (Nat.pred n) = true) by (apply Nat.leb_le; lia).
  assert (Hout : existsb (Nat.eqb (Nat.pred n)) (seq 0 (Nat.pred n)) = false).
  { apply not_true_is_false. intros Hex. apply existsb_exists in Hex.
    destruct Hex as (q & Hq & Heq). apply in_seq in Hq. apply Nat.eqb_eq in Heq. lia. }
  rewrite Hlt, Hge, Hout. reflexivity.
Qed.

Lemma fits_rounds n clbits k oracle diffuser :
  fits n clbits oracle = true -> fits n clbits diffuser = true ->
  forallb (fits n clbits) (rounds k oracle diffuser) = true.
Proof.
  intros Ho Hd. unfold rounds. induction k as [|k IH]; [reflexivity|].
  cbn [repeat concat app forallb]. rewrite Ho, Hd, IH. reflexivity.
Qed.

Lemma fits_measurement n clbits :
  forallb (fits n (clbits + n)) (measurement n clbits) = true.
Proof.
  unfold measurement. cbn [forallb fits]. rewrite all_below_seq. cbn [andb].
  apply fits_map. intros q Hq. apply in_seq in Hq. cbn [fits].
  apply andb_true_iff. split; apply Nat.ltb_lt; lia.
Qed.

(** Every instruction of the circuit a call builds on a new instance fits the
    register: qubits and classical bits exist, the multi-controlled X of the
    diffuser has a control (the width is never below 2) and a target outside
    its controls, and the oracle matrix has side [2 ^ n]. *)
Theorem circuit_fits_register
  (a b : Z) (sampler_run : QuantumCircuit -> result quasi_dist) :
  let after := qc (fst (check_larger_or_equal sampler_run (__init__ a b))) in
  num_qubits after = Z.to_nat (nqubits (__init__ a b)) /\
  forallb (fits (num_qubits after) (num_clbits after)) (data after) = true.
Proof.
  cbv zeta.
  pose proof (init_nqubits_ge_2 a b) as Hn.
  pose proof (init_marked_lt_nstates a b) as Hm.
  assert (Hw : num_qubits (qc (fst (check_larger_or_equal sampler_run (__init__ a b))))
               = Z.to_nat (nqubits (__init__ a b))).
  { rewrite check_circuit. cbv zeta.
    destruct (niterations_checked (nstates (__init__ a b))) as [k|e]; [|reflexivity].
    destruct (Z.to_nat k); [reflexivity|].
    destruct (create_comparison_oracle (__init__ a b)); reflexivity. }
  split; [exact Hw|]. rewrite Hw.
  pose proof (fits_measurement (Z.to_nat (nqubits (__init__ a b))) 0) as Hmeas.
  destruct (check_circuit_cases sampler_run (__init__ a b))
    as [[Hc Hcl]|[(oracle & Ho & Hc & Hcl)|(_ & Hc & Hcl)]];
    rewrite Hc, Hcl; change (data (qc (__init__ a b))) with (@nil Instruction);
    change (num_clbits (qc (__init__ a b))) with O;
    change (num_qubits (qc (__init__ a b))) with (Z.to_nat (nqubits (__init__ a b)));
    cbn [app].
  - unfold hadamard_layer, range. apply fits_hadamards.
  - remember (__init__ a b) as self eqn:Eself.
    assert (Hq : num_qubits (qc self) = Z.to_nat (nqubits self)) by (subst self; reflexivity).
    unfold algorithm, hadamard_layer, range. rewrite Hq, !forallb_app.
    rewrite fits_hadamards.
    rewrite fits_rounds by (first [apply (fits_oracle self _ _ Hm Ho)
                                  |apply (fits_diffuser self _ Hn)]).
    rewrite Hmeas. reflexivity.
  - unfold hadamard_layer, range. rewrite forallb_app, fits_hadamards, Hmeas.
    reflexivity.
Qed.

Example fits_rejects :
  fits 2 0 (HGate 2) = false /\ fits 2 0 (MCXGate [] 0) = false /\
  fits 2 0 (MCXGate [0; 1]%nat 1) = false /\ fits 2 2 (Measure 0 2) = false.
Proof. repeat split. Qed.

(** ** The rotation behind the rounds *)

Lemma inv_sqrt2_pow_range n : (0 < inv_sqrt2 ^ n <= 1)%R.
Proof.
  assert (H0 : (0 < inv_sqrt2)%R).
  { unfold inv_sqrt2. apply Rinv_0_lt_compat. apply sqrt_lt_R0. lra. }
  assert (H1 : (inv_sqrt2 <= 1)%R).
  { pose proof inv_sqrt2_double. nra. }
  split; [apply pow_lt; assumption|].
  induction n as [|n IH]; simpl; [lra|]. nra.
Qed.

Lemma grover_angle_sin_cos n :
  (sin (grover_angle n) = inv_sqrt2 ^ n /\
   cos (grover_angle n) * cos (grover_angle n) + inv_sqrt2 ^ n * inv_sqrt2 ^ n = 1)%R.
Proof.
  pose proof (inv_sqrt2_pow_range n) as Ht.
  assert (Hs : sin (grover_angle n) = (inv_sqrt2 ^ n)%R)
    by (unfold grover_angle; apply sin_asin; lra).
  split; [exact Hs|].
  pose proof (sin2_cos2 (grover_angle n)) as H. unfold Rsqr in H. rewrite Hs in H. lra.
Qed.

(** The recurrence of the rounds is a rotation by twice the angle, with a
    change of sign at each round. *)
Lemma grover_amplitudes_rotate n k :
  let theta := grover_angle n in
  let phi := ((2 * INR k + 1) * theta)%R in
  (fst (grover_amplitudes n k) = (-1) ^ k * sin phi /\
   snd (grover_amplitudes n k) * cos theta = (-1) ^ k * cos phi * inv_sqrt2 ^ n)%R.
Proof.
  intros theta. cbv zeta.
  pose proof (grover_angle_sin_cos n) as [Hsin Hc]. fold theta in Hsin, Hc.
  pose proof (inv_sqrt2_pow n) as Ht.
  pose proof (INR_pow2_pos n) as HN.
  assert (HNt : (INR (2 ^ n) * (inv_sqrt2 ^ n * inv_sqrt2 ^ n) = 1)%R)
    by (rewrite Ht; field; lra).
  induction k as [|k [IHa IHb]].
  - simpl grover_amplitudes. cbn [fst snd]. simpl INR.
    replace ((2 * 0 + 1) * theta)%R with theta by ring.
    rewrite Hsin. simpl pow. split; ring.
  - rewrite S_INR.
    replace ((2 * (INR k + 1) + 1) * theta)%R
      with ((2 * INR k + 1) * theta + 2 * theta)%R by ring.
    rewrite sin_plus, cos_plus, sin_2a, cos_2a_sin, Hsin.
    cbn [grover_amplitudes]. unfold grover_step. cbn [fst snd].
    set (S := sin ((2 * INR k + 1) * theta)) in *.
    set (K := cos ((2 * INR k + 1) * theta)) in *.
    set (alpha := fst (grover_amplitudes n k)) in *.
    set (beta := snd (grover_amplitudes n k)) in *.
    set (t := (inv_sqrt2 ^ n)%R) in *. set (c := cos theta) in *.
    set (N := INR (2 ^ n)) in *. set (sg := ((-1) ^ k)%R) in *.
    unfold Rdiv. rewrite <- Ht.
    replace ((-1) ^ Datatypes.S k)%R with (- sg)%R by (unfold sg; simpl; ring).
    split; nsatz.
Qed.

(** After [k] rounds the marked index is measured with probability
    [sin^2 ((2 k + 1) theta)] where [sin theta = 1 / sqrt N], and the other
    [N - 1] indices share [cos^2 ((2 k + 1) theta)] equally; this for the
    oracle the method returns, which it does on every buildable register. *)
Theorem probability_after_rounds (self : GroverComparator) :
  2 <= nqubits self ->
  0 <= marked_index self < 2 ^ nqubits self ->
  let n := Z.to_nat (nqubits self) in
  let N := INR (2 ^ n) in
  let theta := grover_angle n in
  (sin theta * sin theta = / N)%R /\
  (buildable (nqubits self) -> exists oracle, create_comparison_oracle self = Ok oracle) /\
  forall oracle,
    create_comparison_oracle self = Ok oracle ->
    forall k,
      let after := evolve (map HGate (range (nqubits self))
                           ++ rounds k (oracle (range (nqubits self)))
                                       (create_diffuser self (range (nqubits self))))
                          ground in
      Cnorm2 (after (Z.to_nat (marked_index self)))
      = (sin ((2 * INR k + 1) * theta) * sin ((2 * INR k + 1) * theta))%R /\
      forall i, (i < 2 ^ n)%nat -> i <> Z.to_nat (marked_index self) ->
        (Cnorm2 (after i) * (N - 1)
         = cos ((2 * INR k + 1) * theta) * cos ((2 * INR k + 1) * theta))%R.
Proof.
  intros Hn Hm n N theta.
  pose proof (grover_angle_sin_cos n) as [Hsin Hc]. fold theta in Hsin, Hc.
  pose proof (inv_sqrt2_pow n) as Ht. fold N in Ht.
  pose proof (INR_pow2_pos n) as HN. fold N in HN.
  split; [rewrite Hsin; exact Ht|].
  split; [intros Hb; eexists; apply (oracle_of_marked_in_range self Hm Hb)|].
  intros oracle Ho k. cbv zeta.
  pose proof (state_after_rounds self oracle k Hn Hm Ho) as Hst.
  unfold hadamard_layer in Hst. fold n in Hst.
  pose proof (grover_amplitudes_rotate n k) as [Ha Hb]. fold theta in Ha, Hb.
  assert (Hsq : ((-1) ^ k * (-1) ^ k = 1)%R).
  { rewrite <- Rpow_mult_distr. replace (-1 * -1)%R with 1%R by ring. apply pow1. }
  split.
  - rewrite (Hst _ (marked_below self Hm)). unfold two_valued.
    rewrite Nat.eqb_refl. unfold Cnorm2, RtoC. cbn [fst snd]. rewrite Ha.
    set (sg := ((-1) ^ k)%R) in *. nsatz.
  - intros i Hi Hne. rewrite (Hst _ Hi). unfold two_valued.
    destruct (Nat.eqb_spec i (Z.to_nat (marked_index self))); [contradiction|].
    unfold Cnorm2, RtoC. cbn [fst snd].
    assert (HNt : (N * (inv_sqrt2 ^ n * inv_sqrt2 ^ n) = 1)%R) by (rewrite Ht; field; lra).
    set (beta := snd (grover_amplitudes n k)) in *.
    set (t := (inv_sqrt2 ^ n)%R) in *. set (c := cos theta) in *.
    set (K := cos ((2 * INR k + 1) * theta)) in *. set (sg := ((-1) ^ k)%R) in *.
    assert (H1 : (beta * beta * (c * c) = K * K * (t * t))%R) by nsatz.
    assert (H2 : (c * c = (N - 1) * (t * t))%R) by nsatz.
    assert (Ht0 : (t * t <> 0)%R) by (rewrite Ht; apply Rinv_neq_0_compat; lra).
    apply (Rmult_eq_reg_r (t * t)); [|exact Ht0].
    rewrite <- H1, H2. ring.
Qed.

End Platform.

(** * The properties at concrete inputs

    A platform that grants numpy arrays of up to [2 ^ 20] bytes. *)

(** C1 as stated fails: for the pair [(2 ^ 31, 0)], of width 32, the
    difference is not negative and the call answers nothing: it raises
    [ValueError], whatever the platform grants and the sampler returns. *)
Lemma comparison_raises_at_width_32 :
  2 ^ 31 - 0 >= 0 /\
  snd (check_larger_or_equal (2 ^ 20) (fun _ => Ok [(0, 1%R)]) (__init__ (2 ^ 31) 0))
  = Raise "ValueError" /\
  ~ (snd (check_larger_or_equal (2 ^ 20) (fun _ => Ok [(0, 1%R)]) (__init__ (2 ^ 31) 0))
     = Ok true <-> 2 ^ 31 - 0 >= 0).
Proof.
  assert (Hw : 30 <= nqubits (__init__ (2 ^ 31) 0) <= 63) by (vm_compute; split; discriminate).
  rewrite (check_init_value_error (2 ^ 20) (fun _ => Ok [(0, 1%R)]) _ _ Hw).
  split; [lia|]. split; [reflexivity|].
  intros [_ H]. discriminate H. lia.
Qed.

Lemma comparison_decided_by_difference_witness :
  snd (check_larger_or_equal (2 ^ 20) (fun _ => Ok [(2, 1%R)]) (__init__ 5 3)) = Ok true
  <-> 5 - 3 >= 0.
Proof.
  apply (comparison_decided_by_difference (2 ^ 20) 5 3 (fun _ => Ok [(2, 1%R)]) [(2, 1%R)]).
  - split; simpl; lia.
  - reflexivity.
Defined.

(** C5 as stated fails: for the pair [(2 ^ 31, 0)], of width 32, the count
    [floor(pi / 4 * sqrt (2 ^ 32))] is 51471 and the run holds no round at
    all: the call leaves the 32 Hadamard gates and nothing else. *)
Lemma no_round_at_width_32 :
  niterations_of (2 ^ 32) = 51471 /\
  data (qc (fst (check_larger_or_equal (2 ^ 20) (fun _ => Ok [(0, 1%R)])
                   (__init__ (2 ^ 31) 0)))) = map HGate (seq 0 32) /\
  ~ (exists oracle diffuser rest,
       data (qc (fst (check_larger_or_equal (2 ^ 20) (fun _ => Ok [(0, 1%R)])
                        (__init__ (2 ^ 31) 0)))) =
       map HGate (seq 0 32)
       ++ concat (repeat [oracle; diffuser] (Z.to_nat (niterations_of (2 ^ 32))))
       ++ rest).
Proof.
  assert (Hw : 30 <= nqubits (__init__ (2 ^ 31) 0) <= 63) by (vm_compute; split; discriminate).
  assert (Hk : niterations_of (2 ^ 32) = 51471)
    by (apply floor_certificate_sound; reflexivity).
  rewrite (check_init_value_error (2 ^ 20) (fun _ => Ok [(0, 1%R)]) _ _ Hw).
  split; [exact Hk|]. split; [reflexivity|].
  intros (oracle & diffuser & rest & H).
  apply (f_equal (@length Instruction)) in H.
  rewrite Hk in H.
  change (concat (repeat [oracle; diffuser] (Z.to_nat 51471)))
    with (rounds (Z.to_nat 51471) oracle diffuser) in H.
  rewrite !length_app, length_rounds in H.
  change (length (data (qc (fst
            (with_qc (__init__ (2 ^ 31) 0)
               (qc_h (range (nqubits (__init__ (2 ^ 31) 0))) (qc (__init__ (2 ^ 31) 0))),
             @Raise bool "ValueError")))))
    with (length (map HGate (seq 0 32))) in H.
  lia.
Qed.

(** C10 as stated fails: for the pair [(2 ^ 31, 0)], of width 32, a call
    appends the 32 Hadamard gates and raises; no oracle, no diffuser and no
    measurement is appended, the circuit has no classical bit, and a second
    call appends 32 Hadamard gates more, not a second algorithm onto a
    measured circuit. *)
Lemma wide_call_appends_hadamard_layer_only :
  data (qc (fst (check_larger_or_equal (2 ^ 20) (fun _ => Ok [(0, 1%R)])
                   (__init__ (2 ^ 31) 0)))) = map HGate (seq 0 32) /\
  num_clbits (qc (fst (check_larger_or_equal (2 ^ 20) (fun _ => Ok [(0, 1%R)])
                         (__init__ (2 ^ 31) 0)))) = 0%nat /\
  data (qc (fst (check_larger_or_equal (2 ^ 20) (fun _ => Ok [(0, 1%R)])
                   (fst (check_larger_or_equal (2 ^ 20) (fun _ => Ok [(0, 1%R)])
                           (__init__ (2 ^ 31) 0))))))
  = map HGate (seq 0 32) ++ map HGate (seq 0 32) /\
  ~ In (Barrier (seq 0 32))
       (data (qc (fst (check_larger_or_equal (2 ^ 20) (fun _ => Ok [(0, 1%R)])
                         (__init__ (2 ^ 31) 0))))).
Proof.
  assert (Hw : 30 <= nqubits (__init__ (2 ^ 31) 0) <= 63) by (vm_compute; split; discriminate).
  rewrite (check_init_value_error (2 ^ 20) (fun _ => Ok [(0, 1%R)]) _ _ Hw).
  cbn [fst].
  split; [reflexivity|]. split; [reflexivity|]. split.
  - rewrite (check_raises_in_oracle (2 ^ 20) (fun _ => Ok [(0, 1%R)]) _ "ValueError").
    + reflexivity.
    + apply (init_nstates_small (2 ^ 31) 0). lia.
    + apply (init_rounds_at_least_one (2 ^ 31) 0).
    + apply (oracle_too_large (2 ^ 20) (__init__ (2 ^ 31) 0)). lia.
  - change (data (qc (with_qc (__init__ (2 ^ 31) 0)
              (qc_h (range (nqubits (__init__ (2 ^ 31) 0))) (qc (__init__ (2 ^ 31) 0))))))
      with (map HGate (seq 0 32)).
    rewrite in_map_iff. intros (q & Hq & _). discriminate Hq.
Qed.

Lemma check_mutates_circuit_in_place_witness :
  num_clbits (qc (fst (check_larger_or_equal (2 ^ 20) (fun _ => Ok [(2, 1%R)])
                         (fst (check_larger_or_equal (2 ^ 20) (fun _ => Ok [(2, 1%R)])
                                 (__init__ 5 3)))))) = 4%nat.
Proof.
  destruct (check_mutates_circuit_in_place (2 ^ 20) 5 3 (fun _ => Ok [(2, 1%R)]))
    as [_ (oracle & _ & _ & _ & _ & _ & _ & Hc & _)].
  - split; simpl; lia.
  - exact Hc.
Defined.

Lemma oracle_is_marked_phase_flip_witness :
  exists m,
    (buildable (2 ^ 20) 2 ->
     create_comparison_oracle (2 ^ 20) (__init__ 5 3) =
       Ok (fun qs => Composite "Oracle(>=)" [UnitaryGate m (range 2)] qs)) /\
    (forall oracle,
       create_comparison_oracle (2 ^ 20) (__init__ 5 3) = Ok oracle ->
       oracle = fun qs => Composite "Oracle(>=)" [UnitaryGate m (range 2)] qs) /\
    length m = 4%nat /\
    (forall r c, (r < 4)%nat -> (c < 4)%nat ->
       nth c (nth r m []) 0 = if Nat.eqb r c then (if Nat.eqb r 2 then -1 else 1) else 0) /\
    (forall r r', (r < 4)%nat -> (r' < 4)%nat ->
       Rsum (fun c => (IZR (nth c (nth r m []) 0%Z) * IZR (nth c (nth r' m []) 0%Z))%R) 4 =
       if Nat.eqb r r' then 1%R else 0%R) /\
    (forall f i, (i < 4)%nat ->
       apply_instr (fun q => q)
         (Composite "Oracle(>=)" [UnitaryGate m (range 2)] (range 2)) f i =
       if Nat.eqb i 2 then Copp (f i) else f i).
Proof.
  apply (oracle_is_marked_phase_flip (2 ^ 20) (__init__ 5 3)).
  vm_compute. split; [discriminate|reflexivity].
Defined.

Lemma probability_one_after_every_transform_witness :
  total_probability 2 (evolve (map HGate (range 2)) ground) = 1%R.
Proof.
  destruct (probability_one_after_every_transform (2 ^ 20)
              (__init__ 5 3) (fun _ => Ok [(2, 1%R)]))
    as [Hfirst [Hp _]].
  - simpl. lia.
  - vm_compute. split; [discriminate|reflexivity].
  - reflexivity.
  - destruct Hfirst as (oracle & _ & Hc).
    + split; simpl; lia.
    + simpl. lia.
    + exact (Hp _ _ Hc).
Defined.

Lemma oracle_is_involutive_witness :
  exists oracle,
    create_comparison_oracle (2 ^ 20) (__init__ 7 2) = Ok oracle /\
    forall f i, (i < 2 ^ 3)%nat ->
      apply_instr (fun q => q) (oracle (range 3))
        (apply_instr (fun q => q) (oracle (range 3)) f) i = f i.
Proof.
  destruct (oracle_is_involutive (2 ^ 20) (__init__ 7 2)) as [Hex Hinv].
  - vm_compute. split; [discriminate|reflexivity].
  - destruct Hex as [oracle Ho]; [split; simpl; lia|].
    exists oracle. split; [exact Ho|exact (Hinv oracle Ho)].
Defined.

Lemma state_is_two_valued_after_rounds_witness :
  exists oracle,
    create_comparison_oracle (2 ^ 20) (__init__ 7 2) = Ok oracle /\
    forall k i, (i < 2 ^ 3)%nat ->
      evolve (map HGate (range 3)
              ++ rounds k (oracle (range 3)) (create_diffuser (__init__ 7 2) (range 3)))
             ground i
      = if Nat.eqb i 5
        then RtoC (fst (grover_amplitudes 3 k))
        else RtoC (snd (grover_amplitudes 3 k)).
Proof.
  destruct (state_is_two_valued_after_rounds (2 ^ 20) (__init__ 7 2)) as [Hex Hst].
  - simpl. lia.
  - vm_compute. split; [discriminate|reflexivity].
  - destruct Hex as [oracle Ho]; [split; simpl; lia|].
    exists oracle. split; [exact Ho|exact (Hst oracle Ho)].
Defined.

Lemma first_round_amplifies_witness :
  exists oracle,
    create_comparison_oracle (2 ^ 20) (__init__ 7 2) = Ok oracle /\
    let after := evolve (map HGate (range 3)
                         ++ [oracle (range 3);
                             create_diffuser (__init__ 7 2) (range 3)]) ground in
    Cnorm2 (after 5%nat)
    = ((3 - 4 / INR (2 ^ 3)) * (3 - 4 / INR (2 ^ 3)) / INR (2 ^ 3))%R /\
    forall i, (i < 2 ^ 3)%nat -> i <> 5%nat ->
      Cnorm2 (after i)
      = ((1 - 4 / INR (2 ^ 3)) * (1 - 4 / INR (2 ^ 3)) / INR (2 ^ 3))%R /\
      (Cnorm2 (after i) < Cnorm2 (after 5%nat))%R.
Proof.
  destruct (first_round_amplifies (2 ^ 20) (__init__ 7 2)) as [Hex Hamp].
  - simpl. lia.
  - vm_compute. split; [discriminate|reflexivity].
  - destruct Hex as [oracle Ho]; [split; simpl; lia|].
    exists oracle. split; [exact Ho|exact (Hamp oracle Ho)].
Defined.

Lemma small_difference_found_with_certainty_witness :
  nqubits (__init__ 5 3) = 2 /\
  forall i, (i < 4)%nat ->
    Cnorm2 (evolve (data (qc (fst (check_larger_or_equal (2 ^ 20) (fun _ => Ok [(2, 1%R)])
                                     (__init__ 5 3))))) ground i)
    = if Nat.eqb i 2 then 1%R else 0%R.
Proof.
  apply (small_difference_found_with_certainty (2 ^ 20) 5 3 (fun _ => Ok [(2, 1%R)])).
  - lia.
  - simpl. lia.
Defined.

Lemma small_difference_is_most_likely_witness :
  most_likely
    (born 2 (evolve (data (qc (fst (check_larger_or_equal (2 ^ 20)
                                      (fun _ => Raise "QiskitError")
                                      (__init__ 3 5))))) ground))
  = (Some 2, Fin 1%R).
Proof.
  apply (small_difference_is_most_likely (2 ^ 20) 3 5 (fun _ => Raise "QiskitError")).
  - lia.
  - simpl. lia.
Defined.

Lemma circuit_depends_on_magnitude_only_witness :
  data (qc (fst (check_larger_or_equal (2 ^ 20) (fun _ => Ok []) (__init__ 12 5)))) =
  data (qc (fst (check_larger_or_equal (2 ^ 20) (fun _ => Raise "QiskitError")
                   (__init__ (-3) 4)))).
Proof.
  apply (circuit_depends_on_magnitude_only (2 ^ 20) 12 5 (-3) 4). reflexivity.
Defined.

Lemma swapped_inputs_same_circuit_opposite_answer_witness :
  exists answer,
    snd (check_larger_or_equal (2 ^ 20) (fun _ => Ok [(2, 1%R)]) (__init__ 5 3)) = Ok answer /\
    snd (check_larger_or_equal (2 ^ 20) (fun _ => Ok [(2, 1%R)]) (__init__ 3 5))
    = Ok (negb answer).
Proof.
  apply (swapped_inputs_same_circuit_opposite_answer (2 ^ 20) 5 3
           (fun _ => Ok [(2, 1%R)]) [(2, 1%R)] [(2, 1%R)]).
  - lia.
  - split; simpl; lia.
  - reflexivity.
  - reflexivity.
Defined.

Lemma call_fails_when_marked_index_out_of_range_witness :
  check_larger_or_equal (2 ^ 20) (fun _ => Ok [(1, 1%R)])
    (mkGC 9 0 9 2 4 (QuantumCircuit_new None 2)) =
  (with_qc (mkGC 9 0 9 2 4 (QuantumCircuit_new None 2))
     (qc_add (QuantumCircuit_new None 2) (map HGate (range 2))),
   Raise "IndexError").
Proof.
  apply (call_fails_when_marked_index_out_of_range (2 ^ 20)
           (mkGC 9 0 9 2 4 (QuantumCircuit_new None 2))).
  - simpl. lia.
  - reflexivity.
  - split; simpl; lia.
  - vm_compute. discriminate.
  - simpl. lia.
Defined.


Lemma probability_after_rounds_witness :
  (sin (grover_angle 3) * sin (grover_angle 3) = / INR (2 ^ 3))%R /\
  exists oracle, create_comparison_oracle (2 ^ 20) (__init__ 7 2) = Ok oracle.
Proof.
  destruct (probability_after_rounds (2 ^ 20) (__init__ 7 2)) as [Hsin [Hex _]].
  - simpl. lia.
  - vm_compute. split; [discriminate|reflexivity].
  - split; [exact Hsin|]. apply Hex. split; simpl; lia.
Defined.
